(** * spacesvm: the prefix registry, the signer and the block engine

    A shallow embedding of
    - [chain/lifeline_tx.go] ([addLife], [LifelineTx.Execute]),
    - the signer of package [chain] ([Sign], [DeriveSender]),
    - the block engine of package [vm] ([getBlock], [readWindow],
      [Recents], [Verified], [Rejected], [Accepted]),
    together with the properties the specification states about them.

    Go's machine integers are integers of [Z] with the wrap-around written
    out; a run-time panic (integer division by zero, index out of range,
    [panic(err)]) is an outcome of its own, next to a returned error. *)

From Stdlib Require Import ZArith Lia Strings.Byte.
From stdpp Require Import base option gmap sets list.

#[local] Open Scope Z_scope.

(** ** Go values *)

(** [uint64] and [int64] arithmetic: the mathematical result reduced to the
    type's range. *)
Definition wrap_u64 (z : Z) : Z := z mod 2 ^ 64.
Definition wrap_i64 (z : Z) : Z := (z + 2 ^ 63) mod 2 ^ 64 - 2 ^ 63.

Definition is_u64 (z : Z) : Prop := 0 <= z < 2 ^ 64.
Definition is_i64 (z : Z) : Prop := - 2 ^ 63 <= z < 2 ^ 63.

(** The error values the modelled functions return. [ErrExternal] stands for
    an error of a collaborator (the secp256k1 library, the block store). *)
Inductive error : Set :=
  | ErrPrefixMissing
  | ErrPrefixNotExpired
  | ErrPublicKeyMismatch
  | ErrInvalidSignature
  | ErrExternal.

(** What a call of a Go function ends in: its value with a nil error, a
    non-nil error, or a panic. *)
Inductive result (A : Type) : Type :=
  | Ok (a : A)
  | Err (e : error)
  | Panic.
Arguments Ok {A} a.
Arguments Err {A} e.
Arguments Panic {A}.

#[global] Instance result_ret : MRet result := fun A a => Ok a.
#[global] Instance result_bind : MBind result := fun A B k r =>
  match r with
  | Ok a => k a
  | Err e => Err e
  | Panic => Panic
  end.

(** [a / b] on unsigned operands: a zero divisor panics. *)
Definition u64_div (a b : Z) : result Z :=
  if b =? 0 then Panic else Ok (a / b).

(** [a / b] on [int64] operands: truncated division, a zero divisor panics. *)
Definition i64_div (a b : Z) : result Z :=
  if b =? 0 then Panic else Ok (wrap_i64 (Z.quot a b)).

(** Bytes ([uint8]): [b + k] and [b - k] modulo 256. *)
Definition byte_add (b : byte) (k : N) : byte :=
  default b (Byte.of_N ((Byte.to_N b + k) mod 256)%N).
Definition byte_sub (b : byte) (k : N) : byte :=
  default b (Byte.of_N ((Byte.to_N b + (256 - k mod 256)) mod 256)%N).

#[global] Instance byte_eq_dec : EqDecision byte := Byte.byte_eq_dec.
#[global] Program Instance byte_countable : Countable byte :=
  inj_countable Byte.to_N Byte.of_N _.
Next Obligation. intros x. apply Byte.of_to_N. Qed.

(** [ids.ID] is a 32-byte array; it is read here as the number its bytes
    spell, so that the empty id [ids.ID{}] is [0]. *)
Abbreviation ID := N.
Definition emptyID : ID := 0%N.

(** ** Package chain *)

Module Chain.

(** *** The signer *)

Definition legacySigAdj : N := 27.
(** [crypto.SignatureLength] of go-ethereum. *)
Definition SignatureLength : nat := 65.

(** The secp256k1 collaborator ([crypto.Sign], [crypto.SigToPub] of
    go-ethereum): only its interface is used. Both functions read their
    arguments and write to none of them; [crypto.Sign] returns a slice of its
    own. *)
Class Secp256k1 : Type := {
  PrivateKey : Type;
  PublicKey : Type;
  PublicKeyOf : PrivateKey -> PublicKey;
  crypto_Sign : list byte -> PrivateKey -> result (list byte);
  crypto_SigToPub : list byte -> list byte -> result PublicKey;
}.

(** The part of the memory the signer works on: the byte buffers that slices
    point into, by address, and a log of the calls made to the recovery
    primitive (digest and signature as passed). *)
Abbreviation loc := positive.
Record Mem : Type := {
  bufs : gmap loc (list byte);
  recovered : list (list byte * list byte);
}.

(** The bytes a slice holds; a nil slice holds none. *)
Definition slice_bytes (m : Mem) (s : loc) : list byte :=
  default [] (bufs m !! s).

(** [make([]byte, n)]: a fresh zeroed buffer. *)
Definition make_bytes (m : Mem) (n : nat) : Mem * loc :=
  let l := fresh (dom (bufs m)) in
  ({| bufs := <[l := replicate n x00]> (bufs m); recovered := recovered m |}, l).

(** A slice a callee returns, with contents [bs]. *)
Definition new_slice (m : Mem) (bs : list byte) : Mem * loc :=
  let l := fresh (dom (bufs m)) in
  ({| bufs := <[l := bs]> (bufs m); recovered := recovered m |}, l).

(** [copy(dst, src)]: the first [min (len dst) (len src)] bytes. *)
Definition copy_bytes (m : Mem) (dst src : loc) : Mem :=
  let d := slice_bytes m dst in
  let s := slice_bytes m src in
  {| bufs := <[dst := take (length d) s ++ drop (length s) d]> (bufs m);
     recovered := recovered m |}.

(** [s[i] = f(s[i])]; an index out of range panics. *)
Definition update_index (m : Mem) (s : loc) (i : nat) (f : byte -> byte)
  : result Mem :=
  match slice_bytes m s !! i with
  | None => Panic
  | Some b =>
      Ok {| bufs := <[s := <[i := f b]> (slice_bytes m s)]> (bufs m);
            recovered := recovered m |}
  end.

Section Signer.
Context `{Secp256k1}.

(** [crypto.SigToPub(dh, sig)], logged. *)
Definition SigToPub (m : Mem) (dh : list byte) (sig : loc)
  : Mem * result PublicKey :=
  let bs := slice_bytes m sig in
  ({| bufs := bufs m; recovered := recovered m ++ [(dh, bs)] |},
   crypto_SigToPub dh bs).

(** [Sign]: the signature of [crypto.Sign] with byte 64 raised by 27. The
    digest is only read, so it is passed by its contents. *)
Definition Sign (m : Mem) (dh : list byte) (priv : PrivateKey)
  : Mem * result loc :=
  match crypto_Sign dh priv with
  | Err e => (m, Err e)
  | Panic => (m, Panic)
  | Ok bs =>
      let '(m1, sig) := new_slice m bs in
      match update_index m1 sig 64 (fun b => byte_add b legacySigAdj) with
      | Ok m2 => (m2, Ok sig)
      | Err e => (m1, Err e)
      | Panic => (m1, Panic)
      end
  end.

(** [DeriveSender]: the public key recovered from a copy of [sig] with byte 64
    lowered by 27. *)
Definition DeriveSender (m : Mem) (dh : list byte) (sig : loc)
  : Mem * result PublicKey :=
  if negb (length (slice_bytes m sig) =? SignatureLength)%nat then
    (m, Err ErrInvalidSignature)
  else
    let '(m1, sigcpy) := make_bytes m SignatureLength in
    let m2 := copy_bytes m1 sigcpy sig in
    match update_index m2 sigcpy 64 (fun b => byte_sub b legacySigAdj) with
    | Ok m3 => SigToPub m3 dh sigcpy
    | Err e => (m2, Err e)
    | Panic => (m2, Panic)
    end.

(** What the signer relies on of the collaborator. A private key is valid
    when [crypto.Sign] accepts it with every 32-byte digest; a signature it
    returns has [SignatureLength] bytes and recovers to the key's public key. *)
Definition valid_key (k : PrivateKey) : Prop :=
  forall d, length d = 32%nat -> exists s, crypto_Sign d k = Ok s.

Definition recovers : Prop :=
  forall d k s,
    crypto_Sign d k = Ok s ->
    length s = SignatureLength /\ crypto_SigToPub d s = Ok (PublicKeyOf k).

End Signer.

(** *** The prefix registry *)

(** The constants of package [chain] and [prefixUnits], which the files at
    hand use and do not define. *)
Class ChainParams : Type := {
  LookbackWindow : Z;
  BlockTarget : Z;
  TargetTransactions : Z;
  MinBlockCost : Z;
  MinDifficulty : Z;
  ExpiryTime : Z;
  PrefixRenewalDiscount : Z;
  prefixUnits : list byte -> Z;
}.

(** [crypto.SECP256K1RPKLen]: the length of a serialized public key. *)
Definition PublicKeyLen : nat := 33.

(** Modelled from the spec: the declaration of [PrefixInfo] is not among the
    sources; the spec gives its fields [owner], [expiry] (unix seconds)
    and [units]. [LifelineTx.Execute] takes the block time as a [uint64], and
    the quotient added to [Expiry] is taken in that type. *)
Record PrefixInfo : Type := {
  Owner : list byte;
  Expiry : Z;
  Units : Z;
}.

#[global] Instance PrefixInfo_eq_dec : EqDecision PrefixInfo.
Proof. solve_decision. Defined.

(** The part of [database.Database] the registry lives in: the primary
    records by prefix and the expiry index, a set of (expiry, prefix) keys. *)
Record Database : Type := {
  infos : gmap (list byte) PrefixInfo;
  expiries : gset (Z * list byte);
}.

(** Modelled from the spec: [GetPrefixInfo] is not in the sources;
    the spec gives [get(prefix) -> (info, exists)]. The store is an in-memory
    map (the tests' [memdb]), so no read fails. *)
Definition GetPrefixInfo (db : Database) (prefix : list byte)
  : result (option PrefixInfo) :=
  Ok (infos db !! prefix).

(** Modelled from the spec: [PutPrefixInfo] is not in the sources;
    the spec gives [put(prefix, info, prev_expiry)]: write the primary record,
    remove the old expiry-index entry at [prev_expiry], insert the new one at
    [info.expiry]; when [prev_expiry == 0] only the insertion occurs. The
    store is written in place, so the call gives the store it leaves and its
    error. *)
Definition PutPrefixInfo (db : Database) (prefix : list byte) (i : PrefixInfo)
    (lastExpiry : Z) : Database * result unit :=
  let idx :=
    if lastExpiry =? 0 then expiries db
    else expiries db ∖ {[ (lastExpiry, prefix) ]} in
  ({| infos := <[prefix := i]> (infos db);
      expiries := {[ (Expiry i, prefix) ]} ∪ idx |}, Ok ()).

(** Modelled from the spec: the declaration of [BaseTx] is not among the
    sources; the spec gives [sender], [prefix], [graffiti] and
    [blockID]. *)
Record BaseTx : Type := {
  Sender : list byte;
  Prefix : list byte;
  Graffiti : Z;
  BlockID : ID;
}.

Record LifelineTx : Type := { LifelineTx_BaseTx : BaseTx }.
Record ClaimTx : Type := { ClaimTx_BaseTx : BaseTx }.

Section Registry.
Context `{ChainParams}.

(** The two right-hand sides of lines 27 and 28 of lifeline_tx.go: the
    penalty, then the seconds added. The quotient of line 28 is evaluated
    from the left; each division panics on a zero divisor. *)
Definition lifeline_seconds (i : PrefixInfo) (prefix : list byte) : result Z :=
  prefixPenalty ← u64_div (prefixUnits prefix) PrefixRenewalDiscount;
  q1 ← u64_div ExpiryTime (Units i);
  q2 ← u64_div q1 (prefixUnits prefix);
  u64_div q2 prefixPenalty.

(** [addLife] of lifeline_tx.go. The store is written in place: the function
    gives the store it leaves behind together with its outcome. *)
Definition addLife (db : Database) (prefix : list byte)
  : Database * result unit :=
  match GetPrefixInfo db prefix with
  | Err e => (db, Err e)
  | Panic => (db, Panic)
  | Ok None => (db, Err ErrPrefixMissing)
  | Ok (Some i) =>
      let lastExpiry := Expiry i in
      match lifeline_seconds i prefix with
      | Err e => (db, Err e)
      | Panic => (db, Panic)
      | Ok secs =>
          let i' := {| Owner := Owner i;
                       Expiry := wrap_u64 (Expiry i + secs);
                       Units := Units i |} in
          PutPrefixInfo db prefix i' lastExpiry
      end
  end.

Definition LifelineTx_Execute (l : LifelineTx) (db : Database) (blockTime : Z)
  : Database * result unit :=
  addLife db (Prefix (LifelineTx_BaseTx l)).

(** Modelled from the spec: [ClaimTx.Execute] is not in the sources
    (only its test, [TestClaimTx], is). The spec's words: a prefix of
    [PublicKeyLen] bytes must equal the sender's serialized public key
    (failure: PublicKeyMismatch; the test expects it of [Execute] itself);
    if an entry exists and [existing.expiry > block_time], fail
    PrefixNotExpired; otherwise create or overwrite with [owner = sender],
    [units = prefixUnits(prefix)], [expiry = block_time + ExpiryTime]. *)
Definition ClaimTx_Execute (c : ClaimTx) (db : Database) (blockTime : Z)
  : Database * result unit :=
  let tx := ClaimTx_BaseTx c in
  if (length (Prefix tx) =? PublicKeyLen)%nat
     && negb (bool_decide (Sender tx = Prefix tx))
  then (db, Err ErrPublicKeyMismatch)
  else
    let newInfo := {| Owner := Sender tx;
                      Expiry := blockTime + ExpiryTime;
                      Units := prefixUnits (Prefix tx) |} in
    match GetPrefixInfo db (Prefix tx) with
    | Err e => (db, Err e)
    | Panic => (db, Panic)
    | Ok (Some existing) =>
        if blockTime <? Expiry existing then (db, Err ErrPrefixNotExpired)
        else PutPrefixInfo db (Prefix tx) newInfo (Expiry existing)
    | Ok None => PutPrefixInfo db (Prefix tx) newInfo 0
    end.

(** Modelled from the spec: [ExpireNext] is not in the sources; the
    spec gives: scan the expiry index for entries with expiry in
    [(lastTime, currTime]]; for each, if [removeData] is set, delete its
    primary record; always delete the index entry. *)
Definition ExpireNext (db : Database) (lastTime currTime : Z)
    (removeData : bool) : Database :=
  let due := filter (fun k => lastTime < k.1 <= currTime) (expiries db) in
  {| infos :=
       if removeData
       then foldr (fun k m => delete k.2 m) (infos db) (elements due)
       else infos db;
     expiries := expiries db ∖ due |}.

End Registry.

End Chain.

(** ** Package vm *)

Module Vm.
Import Chain.

(** Modelled from the spec: [chain.Transaction] and [chain.Block] are declared
    in files that are not at hand. The block engine reads a transaction's id
    ([tx.ID()]) and, of a block, its id ([b.ID()]), parent, timestamp
    ([int64]), difficulty and cost ([uint64]) and transactions. *)
Record Transaction : Type := { tx_ID : ID }.

(** Modelled from the spec: the fields of [chain.Block] (the spec's
    StatefulBlock) that the block engine reads. *)
Record Block : Type := {
  blk_ID : ID;
  Prnt : ID;
  Tmstmp : Z;
  Difficulty : Z;
  Cost : Z;
  Txs : list Transaction;
}.

(** The fields of [VM] the block engine's bookkeeping touches. Of [vm.db] only
    the stored blocks matter here, by id. *)
Record VM : Type := {
  db : gmap ID Block;
  verifiedBlocks : gmap ID Block;
  preferred : ID;
  lastAccepted : ID;
}.

(** Modelled from the spec: [chain.GetBlock] is not in the sources;
    the spec's key layout stores each block under its id. *)
Definition GetBlock (blocks : gmap ID Block) (blkID : ID) : result Block :=
  match blocks !! blkID with
  | Some b => Ok b
  | None => Err ErrExternal
  end.

Definition getBlock (vm : VM) (blkID : ID) : result Block :=
  match verifiedBlocks vm !! blkID with
  | Some blk => Ok blk
  | None => GetBlock (db vm) blkID
  end.

Section Engine.
Context `{ChainParams}.

(** The loop condition's first disjunct (line 307). *)
Definition in_window (currTime : Z) (b : Block) : bool :=
  bool_decide (wrap_i64 (currTime - Tmstmp b) <= LookbackWindow).

(** The loop of [readWindow] (lines 307-319). The callback is a closure over
    variables it updates, so it takes and returns their state. The loop walks a
    chain of stored blocks, which Go does not bound; [fuel] bounds the number
    of iterations, and [None] is "not done within [fuel] iterations". *)
Fixpoint readWindow_loop {St : Type} (fuel : nat) (vm : VM) (currTime : Z)
    (lastID : ID) (f : Block -> St -> bool * St) (curr : Block) (s : St)
  : option (result St) :=
  match fuel with
  | O => None
  | S fuel' =>
      if in_window currTime curr || bool_decide (blk_ID curr = lastID) then
        let '(continue, s') := f curr s in
        if negb continue then Some (Ok s')
        else if bool_decide (Prnt curr = emptyID) then Some (Ok s')
        else
          match getBlock vm (Prnt curr) with
          | Ok b => readWindow_loop fuel' vm currTime lastID f b s'
          | _ => Some Panic
          end
      else Some (Ok s)
  end.

Definition readWindow {St : Type} (fuel : nat) (vm : VM) (currTime : Z)
    (lastID : ID) (f : Block -> St -> bool * St) (s : St)
  : option (result St) :=
  match getBlock vm lastID with
  | Ok curr => readWindow_loop fuel vm currTime lastID f curr s
  | _ => Some Panic
  end.

(** The callback of [Recents] (lines 348-354): it adds the block's id and its
    transactions' ids to the two sets and goes on. *)
Definition Recents_visit (b : Block) (s : gset ID * gset ID)
  : bool * (gset ID * gset ID) :=
  (true,
   ({[ blk_ID b ]} ∪ s.1,
    foldl (fun acc tx => {[ tx_ID tx ]} ∪ acc) s.2 (Txs b))).

Definition secondsSinceLast (currTime : Z) (lastBlock : Block) : Z :=
  wrap_i64 (currTime - Tmstmp lastBlock).

(** The new block cost (lines 356-371). *)
Definition newBlockCost (currTime : Z) (lastBlock : Block) : Z :=
  let newBlockCost := Cost lastBlock in
  let newBlockCost :=
    if newBlockCost <? MinBlockCost then MinBlockCost else newBlockCost in
  if secondsSinceLast currTime lastBlock <? BlockTarget then
    wrap_u64 (newBlockCost
              + wrap_u64 (wrap_i64 (BlockTarget
                                    - secondsSinceLast currTime lastBlock)))
  else
    let possibleDiff :=
      wrap_u64 (wrap_i64 (secondsSinceLast currTime lastBlock - BlockTarget)) in
    if possibleDiff <? wrap_u64 (newBlockCost - MinBlockCost)
    then wrap_u64 (newBlockCost - possibleDiff)
    else MinBlockCost.

(** [uint64(secondsSinceLast/chain.LookbackWindow) + 1] (line 382). *)
Definition elapsedWindows (currTime : Z) (lastBlock : Block) : result Z :=
  q ← i64_div (secondsSinceLast currTime lastBlock) LookbackWindow;
  Ok (wrap_u64 (wrap_u64 q + 1)).

(** The new minimum difficulty (lines 373-388); [recentTxs] is
    [recentTxIDs.Len()]. *)
Definition newMinDifficulty (currTime : Z) (lastBlock : Block) (recentTxs : Z)
  : result Z :=
  let newMinDifficulty := Difficulty lastBlock in
  let newMinDifficulty :=
    if newMinDifficulty <? MinDifficulty then MinDifficulty
    else newMinDifficulty in
  if TargetTransactions <? recentTxs then
    Ok (wrap_u64 (newMinDifficulty + 1))
  else if recentTxs <? TargetTransactions then
    elapsedWindows ← elapsedWindows currTime lastBlock;
    if elapsedWindows <? wrap_u64 (newMinDifficulty - MinDifficulty)
    then Ok (wrap_u64 (newMinDifficulty - elapsedWindows))
    else Ok MinDifficulty
  else Ok newMinDifficulty.

Definition Recents (fuel : nat) (vm : VM) (currTime : Z) (lastBlock : Block)
  : option (result (gset ID * gset ID * Z * Z)) :=
  r ← readWindow fuel vm currTime (blk_ID lastBlock) Recents_visit (∅, ∅);
  Some ('(recentBlockIDs, recentTxIDs) ← r;
        newMinDifficulty ←
          newMinDifficulty currTime lastBlock (Z.of_nat (size recentTxIDs));
        Ok (recentBlockIDs, recentTxIDs, newBlockCost currTime lastBlock,
            newMinDifficulty)).

(** A block with its cost and difficulty raised to the floors. *)
Definition clamp_floors (b : Block) : Block :=
  {| blk_ID := blk_ID b;
     Prnt := Prnt b;
     Tmstmp := Tmstmp b;
     Difficulty := Z.max (Difficulty b) MinDifficulty;
     Cost := Z.max (Cost b) MinBlockCost;
     Txs := Txs b |}.

(** The blocks of the lookback window of [lastID] at [currTime], in the
    order [readWindow] visits them. *)
Definition window (fuel : nat) (vm : VM) (currTime : Z) (lastID : ID)
  : option (result (list Block)) :=
  readWindow fuel vm currTime lastID (fun b w => (true, w ++ [b])) [].

(** The walk [readWindow] is meant to make from block [b] in state [s]: the
    calls of the callback with what each returned, and the state left. *)
Inductive walk {St : Type} (vm : VM) (currTime : Z) (lastID : ID)
    (f : Block -> St -> bool * St)
  : Block -> St -> list (Block * bool) -> St -> Prop :=
  | walk_out b s :
      in_window currTime b || bool_decide (blk_ID b = lastID) = false ->
      walk vm currTime lastID f b s [] s
  | walk_stop b s s1 :
      in_window currTime b || bool_decide (blk_ID b = lastID) = true ->
      f b s = (false, s1) ->
      walk vm currTime lastID f b s [(b, false)] s1
  | walk_genesis b s s1 :
      in_window currTime b || bool_decide (blk_ID b = lastID) = true ->
      f b s = (true, s1) -> Prnt b = emptyID ->
      walk vm currTime lastID f b s [(b, true)] s1
  | walk_parent b s s1 p tr s' :
      in_window currTime b || bool_decide (blk_ID b = lastID) = true ->
      f b s = (true, s1) -> Prnt b <> emptyID ->
      getBlock vm (Prnt b) = Ok p ->
      walk vm currTime lastID f p s1 tr s' ->
      walk vm currTime lastID f b s ((b, true) :: tr) s'.

End Engine.

(** Two outcomes of a bounded loop agree up to a relation on final states. *)
Definition outcome_rel {A B : Type} (R : A -> B -> Prop)
    (o1 : option (result A)) (o2 : option (result B)) : Prop :=
  match o1, o2 with
  | None, None => True
  | Some (Ok a), Some (Ok b) => R a b
  | Some (Err e1), Some (Err e2) => e1 = e2
  | Some Panic, Some Panic => True
  | _, _ => False
  end.

(** [Verified], [Rejected] and [Accepted] (lines 503-525); each returns a nil
    error, so only the new state is given. *)
Definition Verified (vm : VM) (b : Block) : VM :=
  let preferred' :=
    if bool_decide (Prnt b = preferred vm) then blk_ID b else preferred vm in
  {| db := db vm;
     verifiedBlocks := <[blk_ID b := b]> (verifiedBlocks vm);
     preferred := preferred';
     lastAccepted := lastAccepted vm |}.

Definition Rejected (vm : VM) (b : Block) : VM :=
  {| db := db vm;
     verifiedBlocks := delete (blk_ID b) (verifiedBlocks vm);
     preferred := preferred vm;
     lastAccepted := lastAccepted vm |}.

Definition Accepted (vm : VM) (b : Block) : VM :=
  {| db := db vm;
     verifiedBlocks := delete (blk_ID b) (verifiedBlocks vm);
     preferred := preferred vm;
     lastAccepted := blk_ID b |}.

(** A call the consensus engine makes on the VM, and runs of such calls. *)
Inductive call : Type :=
  | CallVerified (b : Block)
  | CallRejected (b : Block)
  | CallAccepted (b : Block).

Definition step (vm : VM) (c : call) : VM :=
  match c with
  | CallVerified b => Verified vm b
  | CallRejected b => Rejected vm b
  | CallAccepted b => Accepted vm b
  end.

Definition run (vm : VM) (cs : list call) : VM := foldl step vm cs.

(** The ids a run has passed to [Accepted] or [Rejected]. *)
Fixpoint decided (cs : list call) : gset ID :=
  match cs with
  | [] => ∅
  | CallVerified _ :: cs' => decided cs'
  | CallRejected b :: cs' | CallAccepted b :: cs' => {[ blk_ID b ]} ∪ decided cs'
  end.

(** A run keeps to the block lifecycle when it verifies no block it has
    already accepted or rejected; [dec] holds the ids decided so far. *)
Fixpoint lifecycle_from (dec : gset ID) (cs : list call) : bool :=
  match cs with
  | [] => true
  | CallVerified b :: cs' =>
      bool_decide (blk_ID b ∉ dec) && lifecycle_from dec cs'
  | CallRejected b :: cs' | CallAccepted b :: cs' =>
      lifecycle_from ({[ blk_ID b ]} ∪ dec) cs'
  end.

Definition lifecycle (cs : list call) : bool := lifecycle_from ∅ cs.

(** The ancestors of a stored block end in genesis after [n] parent links,
    each parent being in the store. *)
Inductive Reaches (vm : VM) : Block -> nat -> Prop :=
  | Reaches_genesis b : Prnt b = emptyID -> Reaches vm b 0
  | Reaches_parent b p n :
      Prnt b <> emptyID -> getBlock vm (Prnt b) = Ok p -> Reaches vm p n ->
      Reaches vm b (S n).

(** The store keeps every block under its own id. *)
Definition well_keyed (vm : VM) : Prop :=
  forall id b, getBlock vm id = Ok b -> blk_ID b = id.

(** A callback instrumented to record, in order, each block it is called on
    and what it returned. *)
Definition traced {St : Type} (f : Block -> St -> bool * St)
  : Block -> St * list (Block * bool) -> bool * (St * list (Block * bool)) :=
  fun b st =>
    let '(continue, s') := f b st.1 in
    (continue, (s', st.2 ++ [(b, continue)])).

(** [SetPreference] and [LastAccepted] (lines 474-484); both return a nil
    error. *)
Definition SetPreference (vm : VM) (id : ID) : VM :=
  {| db := db vm;
     verifiedBlocks := verifiedBlocks vm;
     preferred := id;
     lastAccepted := lastAccepted vm |}.

Definition LastAccepted (vm : VM) : ID := lastAccepted vm.

(** The blocks [bs] form a chain on top of the block [tip]: the first names
    [tip] as its parent, each next one the block before it. *)
Fixpoint extends_chain (tip : ID) (bs : list Block) : bool :=
  match bs with
  | [] => true
  | b :: bs' => bool_decide (Prnt b = tip) && extends_chain (blk_ID b) bs'
  end.

Section Queries.
Context `{ChainParams}.

(** The callback of [ValidBlockID] (lines 324-330): on the block looked for
    it sets [foundBlockID] and stops the walk. *)
Definition ValidBlockID_visit (blockID : ID) (b : Block) (foundBlockID : bool)
  : bool * bool :=
  if bool_decide (blk_ID b = blockID) then (false, true)
  else (true, foundBlockID).

(** [ValidBlockID] (lines 322-332); [now] is [time.Now().Unix()]. *)
Definition ValidBlockID (fuel : nat) (vm : VM) (now : Z) (blockID : ID)
  : option (result bool) :=
  readWindow fuel vm now (preferred vm) (ValidBlockID_visit blockID) false.

(** The callback of [DifficultyEstimate] (lines 337-341): it adds to the two
    [uint64] counters and goes on. *)
Definition DifficultyEstimate_visit (b : Block) (s : Z * Z) : bool * (Z * Z) :=
  (true, (wrap_u64 (s.1 + Difficulty b), wrap_u64 (s.2 + 1))).

(** [DifficultyEstimate] (lines 334-343); the division of line 342 panics on
    a zero count. *)
Definition DifficultyEstimate (fuel : nat) (vm : VM) (now : Z)
  : option (result Z) :=
  r ← readWindow fuel vm now (preferred vm) DifficultyEstimate_visit (0, 0);
  Some ('(totalDifficulty, totalBlocks) ← r;
        q ← u64_div totalDifficulty totalBlocks;
        Ok (wrap_u64 (q + 1))).

(** The sum of a list of [uint64] values as the loop takes it, wrapping at
    each step. *)
Definition sum_u64 (ds : list Z) : Z :=
  foldl (fun acc d => wrap_u64 (acc + d)) 0 ds.

End Queries.

(** *** Block building *)

(** What the selection loop of [BuildBlock] uses of its collaborators, none of
    which is in the sources: the mempool ([Len], [PopMax], [Push]), a
    transaction's cached difficulty, [Transaction.Verify] run on a scratch
    layer over the block's database, and the layer's [Commit]. [tx_Verify]
    gives the layer as the transaction leaves it and its error; [db_Commit]
    gives the database with the layer written into it. *)
Class BuildEnv : Type := {
  Pool : Type;
  DB : Type;
  pool_Len : Pool -> Z;
  pool_PopMax : Pool -> Transaction * Z * Pool;
  pool_Push : Transaction -> Pool -> Pool;
  tx_Difficulty : Transaction -> Z;
  tx_Verify :
    Transaction -> DB -> Z -> gset ID -> gset ID -> Z -> DB * result unit;
  db_Commit : DB -> result DB;
}.

Section BuildBlock.
Context `{ChainParams} `{BuildEnv}.

(** The loop of [BuildBlock] (lines 434-453) on the transactions selected so
    far, the mempool and the block's scratch database. A transaction below
    the block's difficulty is pushed back and ends the loop; one that fails
    verification is dropped with its scratch layer; a failed commit panics.
    [fuel] bounds the iterations, as for [readWindow_loop]. *)
Fixpoint BuildBlock_loop (fuel : nat) (b_Tmstmp b_Difficulty : Z)
    (recentBlockIDs recentTxIDs : gset ID)
    (txs : list Transaction) (pool : Pool) (tdb : DB)
  : option (result (list Transaction * Pool * DB)) :=
  match fuel with
  | O => None
  | S fuel' =>
      if (Z.of_nat (length txs) <? TargetTransactions)
         && (0 <? pool_Len pool)
      then
        let '(next, diff, pool1) := pool_PopMax pool in
        if diff <? b_Difficulty then
          Some (Ok (txs, pool_Push next pool1, tdb))
        else
          match tx_Verify next tdb b_Tmstmp recentBlockIDs recentTxIDs
                  b_Difficulty with
          | (_, Err _) =>
              BuildBlock_loop fuel' b_Tmstmp b_Difficulty recentBlockIDs
                recentTxIDs txs pool1 tdb
          | (_, Panic) => Some Panic
          | (ttdb, Ok _) =>
              match db_Commit ttdb with
              | Ok tdb' =>
                  BuildBlock_loop fuel' b_Tmstmp b_Difficulty recentBlockIDs
                    recentTxIDs (txs ++ [next]) pool1 tdb'
              | _ => Some Panic
              end
          end
      else Some (Ok (txs, pool, tdb))
  end.

(** The database after the transactions [txs] have been verified and
    committed on [tdb] in order, if each verifies and commits. *)
Fixpoint apply_txs (b_Tmstmp b_Difficulty : Z)
    (recentBlockIDs recentTxIDs : gset ID) (txs : list Transaction) (tdb : DB)
  : option DB :=
  match txs with
  | [] => Some tdb
  | tx :: txs' =>
      match tx_Verify tx tdb b_Tmstmp recentBlockIDs recentTxIDs
              b_Difficulty with
      | (ttdb, Ok _) =>
          match db_Commit ttdb with
          | Ok tdb' =>
              apply_txs b_Tmstmp b_Difficulty recentBlockIDs recentTxIDs txs'
                tdb'
          | _ => None
          end
      | _ => None
      end
  end.

(** What the loop relies on of the mempool: [PopMax] takes one transaction
    out and reports its cached difficulty. *)
Definition pool_laws : Prop :=
  forall pool next diff pool1,
    0 < pool_Len pool ->
    pool_PopMax pool = (next, diff, pool1) ->
    pool_Len pool1 = pool_Len pool - 1 /\ diff = tx_Difficulty next.

End BuildBlock.

End Vm.

(** ** Package cmd *)

Module Cmd.
Import Chain Vm.

(** Modelled from the spec: the declaration of [chain.Genesis] is not in the
    sources; the spec lists its parameters. [genesisFunc] reads and writes
    [MinDifficulty] and [MinBlockCost] ([uint64]). *)
Record Genesis : Type := {
  G_MinDifficulty : Z;
  G_MinBlockCost : Z;
  G_ExpiryTime : Z;
  G_LookbackWindow : Z;
  G_BlockTarget : Z;
  G_TargetTransactions : Z;
  G_PrefixRenewalDiscount : Z;
}.

(** Modelled from the spec: the fields of [chain.StatefulBlock] that
    [genesisFunc] sets. *)
Record StatefulBlock : Type := {
  SB_Tmstmp : Z;
  SB_Difficulty : Z;
  SB_Cost : Z;
  SB_Genesis : Genesis;
}.

(** The block [genesisFunc] builds (lines 51-63) from [chain.DefaultGenesis()],
    the two flags ([int64], -1 when not given) and [time.Now().Unix()]. *)
Definition genesis_block (defaultGenesis : Genesis)
    (minDifficulty minBlockCost now : Z) : StatefulBlock :=
  let g1 :=
    if 0 <=? minDifficulty then
      {| G_MinDifficulty := wrap_u64 minDifficulty;
         G_MinBlockCost := G_MinBlockCost defaultGenesis;
         G_ExpiryTime := G_ExpiryTime defaultGenesis;
         G_LookbackWindow := G_LookbackWindow defaultGenesis;
         G_BlockTarget := G_BlockTarget defaultGenesis;
         G_TargetTransactions := G_TargetTransactions defaultGenesis;
         G_PrefixRenewalDiscount := G_PrefixRenewalDiscount defaultGenesis |}
    else defaultGenesis in
  let g2 :=
    if 0 <=? minBlockCost then
      {| G_MinDifficulty := G_MinDifficulty g1;
         G_MinBlockCost := wrap_u64 minBlockCost;
         G_ExpiryTime := G_ExpiryTime g1;
         G_LookbackWindow := G_LookbackWindow g1;
         G_BlockTarget := G_BlockTarget g1;
         G_TargetTransactions := G_TargetTransactions g1;
         G_PrefixRenewalDiscount := G_PrefixRenewalDiscount g1 |}
    else g1 in
  {| SB_Tmstmp := now;
     SB_Difficulty := G_MinDifficulty g2;
     SB_Cost := G_MinBlockCost g2;
     SB_Genesis := g2 |}.

(** [genesisFunc] (lines 50-73). [chain.Marshal] and [os.WriteFile] are
    collaborators: [Marshal] gives the block's bytes or fails; [WriteFile],
    given a path and the bytes, gives the file system it leaves and its
    error, and what it leaves when it fails is its own affair (the file may
    have been created, truncated or written in part). [genesisFunc] returns
    the error of either and reaches the file system through [WriteFile]
    only. *)
Definition genesisFunc {FS : Type}
    (Marshal : StatefulBlock -> result (list byte))
    (WriteFile : list byte -> list byte -> FS -> FS * result unit)
    (defaultGenesis : Genesis) (genesisFile : list byte)
    (minDifficulty minBlockCost now : Z) (fs : FS)
  : FS * result unit :=
  let blk := genesis_block defaultGenesis minDifficulty minBlockCost now in
  match Marshal blk with
  | Err e => (fs, Err e)
  | Panic => (fs, Panic)
  | Ok b => WriteFile genesisFile b fs
  end.

End Cmd.

(** ** Sample data

    Concrete parameters and inputs the properties below are evaluated on. The
    constants of package [chain] are not in the sources; the values here
    are examples, not the repository's. *)

Module Samples.
Import Chain Vm.

(** A stand-in for the secp256k1 collaborator that keeps its contract: the
    key is a byte, which the signature carries in front. *)
#[local] Instance toy_secp256k1 : Secp256k1 := {|
  PrivateKey := byte;
  PublicKey := byte;
  PublicKeyOf := fun k => k;
  crypto_Sign := fun d k =>
    if (length d =? 32)%nat then Ok (k :: replicate 64 x01)
    else Err ErrExternal;
  crypto_SigToPub := fun d s =>
    match s with
    | k :: _ => Ok k
    | [] => Err ErrExternal
    end;
|}.

Definition sample_params : ChainParams := {|
  LookbackWindow := 60;
  BlockTarget := 1;
  TargetTransactions := 10;
  MinBlockCost := 1;
  MinDifficulty := 1;
  ExpiryTime := 2592000;
  PrefixRenewalDiscount := 5;
  prefixUnits := fun p => if (length p <? 4)%nat then 10 else 1;
|}.

(** The prefixes "foo" and "quark", a prefix of 33 bytes 'a', and two
    serialized public keys. *)
Definition foo : list byte := [x66; x6f; x6f].
Definition quark : list byte := [x71; x75; x61; x72; x6b].
Definition aaa : list byte := replicate 33 x61.
Definition sender1 : list byte := x02 :: replicate 32 x11.
Definition sender2 : list byte := x03 :: replicate 32 x22.

Definition empty_db : Database := {| infos := ∅; expiries := ∅ |}.

Definition sample_info (e : Z) : PrefixInfo :=
  {| Owner := sender1; Expiry := e; Units := 1 |}.

Definition db_with (prefix : list byte) (e : Z) : Database :=
  {| infos := {[ prefix := sample_info e ]};
     expiries := {[ (e, prefix) ]} |}.

Definition lifeline (sender prefix : list byte) : LifelineTx :=
  {| LifelineTx_BaseTx :=
       {| Sender := sender; Prefix := prefix; Graffiti := 0; BlockID := 1%N |} |}.

Definition claim (sender prefix : list byte) : ClaimTx :=
  {| ClaimTx_BaseTx :=
       {| Sender := sender; Prefix := prefix; Graffiti := 0; BlockID := 1%N |} |}.

(** A genesis block built with floors of 0, below the sample's floors of 1,
    alone in its store. *)
Definition g0 : Block :=
  {| blk_ID := 1%N; Prnt := emptyID; Tmstmp := 100; Difficulty := 0;
     Cost := 0; Txs := [] |}.

Definition vm_of (blocks : list Block) (tip : ID) : VM :=
  {| db := list_to_map ((fun b => (blk_ID b, b)) <$> blocks);
     verifiedBlocks := ∅;
     preferred := tip;
     lastAccepted := tip |}.

Definition vm0 : VM := vm_of [g0] 1%N.

(** A block of difficulty 0 that carries [TargetTransactions] transactions. *)
Definition crowded : Block :=
  {| blk_ID := 1%N; Prnt := emptyID; Tmstmp := 100; Difficulty := 0;
     Cost := 1;
     Txs := (fun i => {| tx_ID := i |})
            <$> [101; 102; 103; 104; 105; 106; 107; 108; 109; 110]%N |}.

Definition vm_crowded : VM := vm_of [crowded] 1%N.

(** A block whose cost is the largest [uint64]. *)
Definition g_max : Block :=
  {| blk_ID := 1%N; Prnt := emptyID; Tmstmp := 100; Difficulty := 1;
     Cost := 2 ^ 64 - 1; Txs := [] |}.

Definition vm_max : VM := vm_of [g_max] 1%N.

(** A chain of three blocks: genesis at time 0, then blocks at 100 and 130.
    At time 150 with a window of 60 seconds the two young ones are in the
    window and genesis is not. *)
Definition c1 : Block :=
  {| blk_ID := 1%N; Prnt := emptyID; Tmstmp := 0; Difficulty := 1;
     Cost := 1; Txs := [] |}.
Definition c2 : Block :=
  {| blk_ID := 2%N; Prnt := 1%N; Tmstmp := 100; Difficulty := 1;
     Cost := 1; Txs := [{| tx_ID := 21%N |}] |}.
Definition c3 : Block :=
  {| blk_ID := 3%N; Prnt := 2%N; Tmstmp := 130; Difficulty := 1;
     Cost := 1; Txs := [{| tx_ID := 31%N |}; {| tx_ID := 32%N |}] |}.

Definition vm3 : VM := vm_of [c1; c2; c3] 3%N.

(** A callback that counts its calls and always goes on. *)
Definition count_all (b : Block) (k : nat) : bool * nat := (true, S k).

(** A buffer of 65 bytes at address 1, alone in memory. *)
Definition mem65 : Mem :=
  {| bufs := {[ 1%positive := replicate 65 x2a ]}; recovered := [] |}.

Definition mem_empty : Mem := {| bufs := ∅; recovered := [] |}.

(** A stand-in for the collaborators of block building: the mempool is a
    list kept in descending difficulty, a transaction's difficulty is its id,
    the database is the list of ids executed, and a transaction fails
    verification when its id is among the recent ones. *)
#[local] Instance toy_build : BuildEnv := {|
  Pool := list Transaction;
  DB := list ID;
  pool_Len := fun p => Z.of_nat (length p);
  pool_PopMax := fun p =>
    match p with
    | tx :: p' => (tx, Z.of_N (tx_ID tx), p')
    | [] => ({| tx_ID := 0%N |}, 0, [])
    end;
  pool_Push := fun tx p => tx :: p;
  tx_Difficulty := fun tx => Z.of_N (tx_ID tx);
  tx_Verify := fun tx db _ _ recentTxIDs _ =>
    if bool_decide (tx_ID tx ∈ recentTxIDs) then (db, Err ErrExternal)
    else (db ++ [tx_ID tx], Ok ());
  db_Commit := fun db => Ok db;
|}.

Definition toy_pool : list Transaction :=
  [{| tx_ID := 9%N |}; {| tx_ID := 7%N |}; {| tx_ID := 3%N |}].

End Samples.

(** * Properties *)

(** ** The signer *)

Module SignerProofs.
Import Chain.

Lemma byte_sub_add_legacy (b : byte) :
  byte_sub (byte_add b legacySigAdj) legacySigAdj = b.
Proof. destruct b; reflexivity. Qed.

Lemma fresh_unmapped (m : Mem) : bufs m !! fresh (dom (bufs m)) = None.
Proof. apply not_elem_of_dom, is_fresh. Qed.

Lemma slice_bytes_mapped (m : Mem) (s : loc) :
  slice_bytes m s <> [] -> is_Some (bufs m !! s).
Proof.
  unfold slice_bytes. destruct (bufs m !! s); [eauto | intros []; reflexivity].
Qed.

Lemma copy_bytes_other (m : Mem) (dst src l : loc) :
  l <> dst -> bufs (copy_bytes m dst src) !! l = bufs m !! l.
Proof. intros Hne. unfold copy_bytes. simpl. by rewrite lookup_insert_ne. Qed.

Lemma update_index_other (m m' : Mem) (s l : loc) (i : nat) (f : byte -> byte) :
  update_index m s i f = Ok m' -> l <> s -> bufs m' !! l = bufs m !! l.
Proof.
  unfold update_index. destruct (slice_bytes m s !! i); [|discriminate].
  intros [= <-] Hne. simpl. by rewrite lookup_insert_ne.
Qed.

Lemma update_index_recovered (m m' : Mem) (s : loc) (i : nat) (f : byte -> byte) :
  update_index m s i f = Ok m' -> recovered m' = recovered m.
Proof.
  unfold update_index. destruct (slice_bytes m s !! i); [|discriminate].
  by intros [= <-].
Qed.

Lemma update_index_at (m : Mem) (s : loc) (i : nat) (f : byte -> byte) (b : byte) :
  slice_bytes m s !! i = Some b ->
  exists m', update_index m s i f = Ok m'
             /\ slice_bytes m' s = <[i := f b]> (slice_bytes m s).
Proof.
  intros Hb. unfold update_index. rewrite Hb. eexists. split; [reflexivity|].
  unfold slice_bytes at 1. simpl. by rewrite lookup_insert_eq.
Qed.

Section Signer.
Context `{Secp256k1}.

(** Every buffer that exists before [DeriveSender] holds the same bytes
    after it: the function writes only to the copy it makes. *)
Lemma DeriveSender_preserves (m : Mem) (dh : list byte) (sig l : loc) :
  is_Some (bufs m !! l) ->
  bufs (DeriveSender m dh sig).1 !! l = bufs m !! l.
Proof.
  intros Hl. unfold DeriveSender.
  destruct (negb _); [reflexivity|].
  unfold make_bytes.
  set (c := fresh (dom (bufs m))).
  assert (Hc : l <> c).
  { intros ->. subst c. rewrite fresh_unmapped in Hl. by destruct Hl. }
  set (m1 := {| bufs := <[c:=replicate SignatureLength x00]> (bufs m);
                recovered := recovered m |}).
  assert (H2 : bufs (copy_bytes m1 c sig) !! l = bufs m !! l).
  { rewrite copy_bytes_other by done. subst m1. simpl.
    by rewrite lookup_insert_ne. }
  destruct (update_index (copy_bytes m1 c sig) c 64 _) as [m3| |] eqn:E;
    simpl; try exact H2.
  rewrite (update_index_other _ _ _ _ _ _ E) by done. exact H2.
Qed.

(** C8. [DeriveSender] returns the InvalidSignature error, memory and
    recovery log untouched (no key recovery is attempted), when [sig] is not
    65 bytes long; for a 65-byte [sig] the caller's buffer, like every buffer
    that existed before the call, holds the same bytes afterwards. *)
Theorem DeriveSender_length_and_frame (m : Mem) (dh : list byte) (sig : loc) :
  (length (slice_bytes m sig) <> SignatureLength ->
     DeriveSender m dh sig = (m, Err ErrInvalidSignature))
  /\ (length (slice_bytes m sig) = SignatureLength ->
        slice_bytes (DeriveSender m dh sig).1 sig = slice_bytes m sig
        /\ forall l, is_Some (bufs m !! l) ->
                     bufs (DeriveSender m dh sig).1 !! l = bufs m !! l).
Proof.
  split.
  - intros Hlen. unfold DeriveSender.
    destruct (Nat.eqb_spec (length (slice_bytes m sig)) SignatureLength);
      [contradiction | reflexivity].
  - intros Hlen. split; [|intros l; apply DeriveSender_preserves].
    unfold slice_bytes. rewrite DeriveSender_preserves; [done|].
    apply slice_bytes_mapped. intros E. by rewrite E in Hlen.
Qed.

(** C7. With the collaborator's sign/recover contract, for a 32-byte digest
    [d] and a valid key [k], [Sign] returns a signature from which
    [DeriveSender] recovers the public key of [k]; the bytes handed to the
    recovery primitive are exactly those [crypto.Sign] produced, the +27 of
    [Sign] being undone on byte 64. *)
Theorem DeriveSender_Sign (m : Mem) (d : list byte) (k : PrivateKey) :
  recovers -> valid_key k -> length d = 32%nat ->
  exists s m1 sig m2,
    crypto_Sign d k = Ok s
    /\ Sign m d k = (m1, Ok sig)
    /\ DeriveSender m1 d sig = (m2, Ok (PublicKeyOf k))
    /\ recovered m2 = recovered m ++ [(d, s)].
Proof.
  intros Hrec Hvalid Hd.
  destruct (Hvalid d Hd) as [s Hs].
  destruct (Hrec d k s Hs) as [Hlen Hpub].
  assert (H64 : is_Some (s !! 64%nat)).
  { apply lookup_lt_is_Some. rewrite Hlen. unfold SignatureLength. lia. }
  destruct H64 as [b Hb].
  exists s.
  unfold Sign. rewrite Hs. unfold new_slice.
  set (l := fresh (dom (bufs m))).
  set (m0 := {| bufs := <[l:=s]> (bufs m); recovered := recovered m |}).
  assert (Hm0 : slice_bytes m0 l = s).
  { unfold slice_bytes. subst m0. simpl. by rewrite lookup_insert_eq. }
  destruct (update_index_at m0 l 64 (fun b => byte_add b legacySigAdj) b)
    as (m1 & Hup & Hm1); [by rewrite Hm0|].
  rewrite Hup. rewrite Hm0 in Hm1.
  exists m1, l.
  assert (Hlen1 : length (slice_bytes m1 l) = SignatureLength).
  { by rewrite Hm1, length_insert. }
  unfold DeriveSender. rewrite Hlen1, Nat.eqb_refl. simpl negb. cbv iota.
  unfold make_bytes.
  set (c := fresh (dom (bufs m1))).
  set (m2 := {| bufs := <[c:=replicate SignatureLength x00]> (bufs m1);
                recovered := recovered m1 |}).
  assert (Hcl : l <> c).
  { intros E. pose proof (fresh_unmapped m1) as Hf. fold c in Hf.
    rewrite <- E in Hf. apply (f_equal (default [])) in Hf.
    fold (slice_bytes m1 l) in Hf. simpl in Hf. rewrite Hf in Hlen1.
    discriminate. }
  assert (Hsrc : slice_bytes m2 l = slice_bytes m1 l).
  { unfold slice_bytes. subst m2. simpl. by rewrite lookup_insert_ne. }
  assert (Hdst : slice_bytes m2 c = replicate SignatureLength x00).
  { unfold slice_bytes. subst m2. simpl. by rewrite lookup_insert_eq. }
  assert (Hcopy : slice_bytes (copy_bytes m2 c l) c = slice_bytes m1 l).
  { unfold slice_bytes at 1. unfold copy_bytes. simpl.
    rewrite lookup_insert_eq. simpl. rewrite Hsrc, Hdst.
    rewrite length_replicate, Hlen1, <- Hlen1 at 1.
    rewrite firstn_all. rewrite drop_ge by (by rewrite length_replicate).
    by rewrite app_nil_r. }
  destruct (update_index_at (copy_bytes m2 c l) c 64
              (fun b => byte_sub b legacySigAdj) (byte_add b legacySigAdj))
    as (m3 & Hup3 & Hm3).
  { rewrite Hcopy, Hm1. apply list_lookup_insert_eq.
    by apply lookup_lt_Some in Hb. }
  rewrite Hup3. eexists. unfold SigToPub.
  rewrite Hm3, Hcopy, Hm1, byte_sub_add_legacy.
  rewrite list_insert_insert_eq, list_insert_id by done.
  split; [reflexivity|]. split; [reflexivity|].
  split; [by rewrite Hpub|].
  simpl. rewrite (update_index_recovered _ _ _ _ _ Hup3).
  unfold copy_bytes. simpl.
  by rewrite (update_index_recovered _ _ _ _ _ Hup).
Qed.

End Signer.

End SignerProofs.

(** ** The prefix registry *)

Module RegistryProofs.
Import Chain.

Section Registry.
Context `{ChainParams}.

Lemma u64_div_ok (a b : Z) : b <> 0 -> u64_div a b = Ok (a / b).
Proof. intros Hb. unfold u64_div. by destruct (Z.eqb_spec b 0). Qed.

Lemma u64_div_cases (a b : Z) :
  u64_div a b = Panic \/ u64_div a b = Ok (a / b).
Proof. unfold u64_div. destruct (b =? 0); auto. Qed.

(** With no zero divisor the seconds added are the quotient of line 28. *)
Lemma lifeline_seconds_ok (i : PrefixInfo) (prefix : list byte) :
  PrefixRenewalDiscount <> 0 -> Units i <> 0 -> prefixUnits prefix <> 0 ->
  prefixUnits prefix / PrefixRenewalDiscount <> 0 ->
  lifeline_seconds i prefix
  = Ok (ExpiryTime / Units i / prefixUnits prefix
        / (prefixUnits prefix / PrefixRenewalDiscount)).
Proof.
  intros HD HU HP HQ. unfold lifeline_seconds.
  rewrite (u64_div_ok _ _ HD). simpl.
  rewrite (u64_div_ok _ _ HU). simpl.
  rewrite (u64_div_ok _ _ HP). simpl.
  by rewrite (u64_div_ok _ _ HQ).
Qed.

(** A penalty of zero, which nothing raises to 1, is a zero divisor. *)
Lemma lifeline_seconds_zero_penalty (i : PrefixInfo) (prefix : list byte) :
  prefixUnits prefix / PrefixRenewalDiscount = 0 ->
  lifeline_seconds i prefix = Panic.
Proof.
  intros HQ. unfold lifeline_seconds.
  assert (Hp : u64_div (prefixUnits prefix) PrefixRenewalDiscount = Panic
               \/ u64_div (prefixUnits prefix) PrefixRenewalDiscount = Ok 0).
  { unfold u64_div.
    destruct (PrefixRenewalDiscount =? 0); [left | right; rewrite HQ];
      reflexivity. }
  destruct Hp as [-> | ->]; [reflexivity|]. cbn.
  destruct (u64_div_cases ExpiryTime (Units i)) as [-> | ->];
    [reflexivity|]. cbn.
  by destruct (u64_div_cases (ExpiryTime / Units i) (prefixUnits prefix))
    as [-> | ->].
Qed.

Lemma addLife_missing (db : Database) (prefix : list byte) :
  infos db !! prefix = None -> addLife db prefix = (db, Err ErrPrefixMissing).
Proof. intros E. unfold addLife, GetPrefixInfo. by rewrite E. Qed.

(** Where no divisor is zero, [addLife] adds the quotient to the expiry in
    [uint64] arithmetic and leaves owner, units and every other entry. *)
Lemma addLife_extends (db : Database) (prefix : list byte) (i : PrefixInfo) :
  infos db !! prefix = Some i ->
  PrefixRenewalDiscount <> 0 -> Units i <> 0 -> prefixUnits prefix <> 0 ->
  prefixUnits prefix / PrefixRenewalDiscount <> 0 ->
  exists db',
    addLife db prefix = (db', Ok ())
    /\ infos db'
       = <[prefix :=
             {| Owner := Owner i;
                Expiry :=
                  wrap_u64 (Expiry i
                            + ExpiryTime / Units i / prefixUnits prefix
                              / (prefixUnits prefix / PrefixRenewalDiscount));
                Units := Units i |}]> (infos db).
Proof.
  intros E HD HU HP HQ. unfold addLife, GetPrefixInfo. rewrite E.
  rewrite lifeline_seconds_ok by done. unfold PutPrefixInfo.
  eexists. split; reflexivity.
Qed.

Lemma addLife_zero_penalty (db : Database) (prefix : list byte) (i : PrefixInfo) :
  infos db !! prefix = Some i ->
  prefixUnits prefix / PrefixRenewalDiscount = 0 ->
  addLife db prefix = (db, Panic).
Proof.
  intros E HQ. unfold addLife, GetPrefixInfo. rewrite E.
  by rewrite lifeline_seconds_zero_penalty.
Qed.

(** [addLife] never answers PrefixMissing for a prefix that has an entry. *)
Lemma addLife_PrefixMissing_iff (db : Database) (prefix : list byte) :
  (addLife db prefix).2 = Err ErrPrefixMissing <-> infos db !! prefix = None.
Proof.
  split; [|intros E; by rewrite addLife_missing].
  unfold addLife, GetPrefixInfo.
  destruct (infos db !! prefix) as [i|]; [|done].
  destruct (lifeline_seconds i prefix) eqn:E; simpl; try done.
  unfold lifeline_seconds, u64_div in E.
  repeat (case_match; simpl in E; try discriminate).
Qed.

(** The outcome of a lifeline depends on the prefix alone: neither the
    sender nor the block time is read. *)
Lemma LifelineTx_Execute_permissionless (l l' : LifelineTx) (db : Database)
    (t t' : Z) :
  Prefix (LifelineTx_BaseTx l) = Prefix (LifelineTx_BaseTx l') ->
  LifelineTx_Execute l db t = LifelineTx_Execute l' db t'.
Proof. unfold LifelineTx_Execute. by intros ->. Qed.

(** X1. A lifeline on an entry for which no divisor of line 28 is zero succeeds:
    the entry's expiry grows by
    [ExpiryTime / units / prefixUnits / (prefixUnits / PrefixRenewalDiscount)]
    in [uint64] arithmetic, owner and units stay, and so does every other
    prefix. *)
Theorem LifelineTx_Execute_extends (l : LifelineTx) (db : Database) (t : Z)
    (i : PrefixInfo) :
  infos db !! Prefix (LifelineTx_BaseTx l) = Some i ->
  PrefixRenewalDiscount <> 0 -> Units i <> 0 ->
  prefixUnits (Prefix (LifelineTx_BaseTx l)) <> 0 ->
  prefixUnits (Prefix (LifelineTx_BaseTx l)) / PrefixRenewalDiscount <> 0 ->
  exists db',
    LifelineTx_Execute l db t = (db', Ok ())
    /\ infos db' !! Prefix (LifelineTx_BaseTx l)
       = Some {| Owner := Owner i;
                 Expiry :=
                   wrap_u64
                     (Expiry i
                      + ExpiryTime / Units i
                        / prefixUnits (Prefix (LifelineTx_BaseTx l))
                        / (prefixUnits (Prefix (LifelineTx_BaseTx l))
                           / PrefixRenewalDiscount));
                 Units := Units i |}
    /\ forall q, q <> Prefix (LifelineTx_BaseTx l) ->
                 infos db' !! q = infos db !! q.
Proof.
  intros E HD HU HP HQ. unfold LifelineTx_Execute.
  destruct (addLife_extends db _ i E HD HU HP HQ) as (db' & Hrun & Hinfos).
  exists db'. split; [done|]. rewrite Hinfos. split.
  - by rewrite lookup_insert_eq.
  - intros q Hq. by rewrite lookup_insert_ne.
Qed.

(** X2. A lifeline answers PrefixMissing exactly when the prefix has no entry,
    and then leaves the store as it was; what it does depends on the prefix
    alone, not on the sender or the block time. *)
Theorem LifelineTx_Execute_PrefixMissing (l : LifelineTx) (db : Database)
    (t : Z) :
  ((LifelineTx_Execute l db t).2 = Err ErrPrefixMissing
   <-> infos db !! Prefix (LifelineTx_BaseTx l) = None)
  /\ (infos db !! Prefix (LifelineTx_BaseTx l) = None ->
      LifelineTx_Execute l db t = (db, Err ErrPrefixMissing))
  /\ (forall l' t',
        Prefix (LifelineTx_BaseTx l') = Prefix (LifelineTx_BaseTx l) ->
        LifelineTx_Execute l' db t' = LifelineTx_Execute l db t).
Proof.
  split; [apply addLife_PrefixMissing_iff|].
  split; [apply addLife_missing|].
  intros l' t' Hp. by apply LifelineTx_Execute_permissionless.
Qed.

(** C3, as amended. A claim whose prefix is [PublicKeyLen] (33) bytes long
    and is not the sender's serialized public key fails with
    PublicKeyMismatch, whatever the registry holds and at every block time,
    and the store is unchanged. For every other claim: with no entry for the
    prefix, or one with [expiry <= t], [ClaimTx.Execute] at block time [t]
    succeeds and leaves the entry (owner = sender,
    units = prefixUnits(prefix), expiry = t + ExpiryTime), other prefixes as
    they were; with an entry of [expiry > t] it fails with PrefixNotExpired
    and the store is unchanged. *)
Theorem ClaimTx_Execute_spec (c : ClaimTx) (db : Database) (t : Z) :
  (length (Prefix (ClaimTx_BaseTx c)) = PublicKeyLen ->
   Sender (ClaimTx_BaseTx c) <> Prefix (ClaimTx_BaseTx c) ->
   ClaimTx_Execute c db t = (db, Err ErrPublicKeyMismatch))
  /\ (length (Prefix (ClaimTx_BaseTx c)) <> PublicKeyLen
      \/ Sender (ClaimTx_BaseTx c) = Prefix (ClaimTx_BaseTx c) ->
      (infos db !! Prefix (ClaimTx_BaseTx c) = None
       \/ (exists e, infos db !! Prefix (ClaimTx_BaseTx c) = Some e
                     /\ Expiry e <= t) ->
       exists db',
         ClaimTx_Execute c db t = (db', Ok ())
         /\ infos db' !! Prefix (ClaimTx_BaseTx c)
            = Some {| Owner := Sender (ClaimTx_BaseTx c);
                      Expiry := t + ExpiryTime;
                      Units := prefixUnits (Prefix (ClaimTx_BaseTx c)) |}
         /\ forall q, q <> Prefix (ClaimTx_BaseTx c) ->
                      infos db' !! q = infos db !! q)
      /\ (forall e,
            infos db !! Prefix (ClaimTx_BaseTx c) = Some e -> t < Expiry e ->
            ClaimTx_Execute c db t = (db, Err ErrPrefixNotExpired))).
Proof.
  split.
  { intros Hlen Hne. unfold ClaimTx_Execute.
    rewrite Hlen, Nat.eqb_refl.
    by rewrite (bool_decide_eq_false_2 _ Hne). }
  intros Hpk. unfold ClaimTx_Execute.
  assert (Hguard : (length (Prefix (ClaimTx_BaseTx c)) =? PublicKeyLen)%nat
                   && negb (bool_decide (Sender (ClaimTx_BaseTx c)
                                         = Prefix (ClaimTx_BaseTx c))) = false).
  { destruct Hpk as [Hlen | Heq].
    - apply Nat.eqb_neq in Hlen. by rewrite Hlen.
    - rewrite (bool_decide_eq_true_2 _ Heq). apply andb_false_r. }
  rewrite Hguard. unfold GetPrefixInfo, PutPrefixInfo. split.
  - intros [E | (e & E & He)]; rewrite E.
    + eexists. split; [reflexivity|]. simpl. split.
      * by rewrite lookup_insert_eq.
      * intros q Hq. by rewrite lookup_insert_ne.
    + destruct (Z.ltb_spec t (Expiry e)); [lia|].
      eexists. split; [reflexivity|]. simpl. split.
      * by rewrite lookup_insert_eq.
      * intros q Hq. by rewrite lookup_insert_ne.
  - intros e E He. rewrite E.
    by destruct (Z.ltb_spec t (Expiry e)); [|lia].
Qed.

End Registry.

End RegistryProofs.

Module RegistryChecks.
Import Chain Samples RegistryProofs.

(** C1. The registry holds an entry for "quark", whose 1 unit is below the
    renewal discount of 5: the penalty is 0, no minimum of 1 is applied, and
    [addLife] panics on the division by it instead of adding
    [ExpiryTime / units / prefixUnits / 1] seconds. *)
Theorem addLife_quark_panics :
  @prefixUnits sample_params quark / @PrefixRenewalDiscount sample_params = 0
  /\ infos (db_with quark 100) !! quark = Some (sample_info 100)
  /\ @addLife sample_params (db_with quark 100) quark
     = (db_with quark 100, Panic).
Proof. repeat split; vm_compute; reflexivity. Qed.

(** C2. The same entry exists, yet [LifelineTx.Execute] does not succeed on
    it, whoever sends the lifeline and at whatever block time: it panics. *)
Theorem LifelineTx_Execute_quark_panics :
  is_Some (infos (db_with quark 100) !! quark)
  /\ (@LifelineTx_Execute sample_params (lifeline sender1 quark)
        (db_with quark 100) 7).2 = Panic
  /\ (@LifelineTx_Execute sample_params (lifeline sender2 quark)
        (db_with quark 100) 200).2 = Panic.
Proof. repeat split; try (vm_compute; reflexivity). by eexists. Qed.

Lemma LifelineTx_Execute_extends_witness :
  infos (db_with foo 100) !! foo = Some (sample_info 100)
  /\ exists db',
       @LifelineTx_Execute sample_params (lifeline sender2 foo)
         (db_with foo 100) 7 = (db', Ok ())
       /\ infos db' !! foo = Some (sample_info (100 + 129600)).
Proof.
  assert (E : infos (db_with foo 100) !! foo = Some (sample_info 100))
    by (vm_compute; reflexivity).
  split; [exact E|].
  destruct (@LifelineTx_Execute_extends sample_params (lifeline sender2 foo)
              (db_with foo 100) 7 (sample_info 100) E)
    as (db' & Hrun & Hinfo & _); try (vm_compute; discriminate).
  exists db'. split; [exact Hrun|].
  refine (eq_trans Hinfo _). vm_compute. reflexivity.
Defined.

Lemma LifelineTx_Execute_PrefixMissing_witness :
  infos empty_db !! foo = None
  /\ @LifelineTx_Execute sample_params (lifeline sender1 foo) empty_db 7
     = (empty_db, Err ErrPrefixMissing).
Proof.
  assert (E : infos empty_db !! foo = None) by reflexivity.
  split; [exact E|].
  exact (proj1 (proj2 (@LifelineTx_Execute_PrefixMissing sample_params
                         (lifeline sender1 foo) empty_db 7)) E).
Defined.

(** On "foo" (10 units, penalty 2) the lifeline adds
    [2592000 / 1 / 10 / 2 = 129600] seconds. *)
Example addLife_foo :
  infos (@addLife sample_params (db_with foo 100) foo).1 !! foo
  = Some (sample_info (100 + 129600)).
Proof. vm_compute. reflexivity. Qed.

(** C3, a counterexample to the claim as stated: the registry is empty, yet
    the claim of a 33-byte prefix that is not the sender's public key does not
    succeed; it fails with PublicKeyMismatch, as the first vector of
    [TestClaimTx] expects. *)
Theorem ClaimTx_Execute_public_key_mismatch :
  infos empty_db !! aaa = None
  /\ @ClaimTx_Execute sample_params (claim sender1 aaa) empty_db 1
     = (empty_db, Err ErrPublicKeyMismatch).
Proof. split; vm_compute; reflexivity. Qed.

Lemma ClaimTx_Execute_spec_witness :
  (length (Prefix (ClaimTx_BaseTx (claim sender1 foo))) <> PublicKeyLen
   \/ Sender (ClaimTx_BaseTx (claim sender1 foo))
      = Prefix (ClaimTx_BaseTx (claim sender1 foo)))
  /\ (exists db',
        @ClaimTx_Execute sample_params (claim sender1 foo) empty_db 1
        = (db', Ok ())
        /\ infos db' !! foo
           = Some {| Owner := sender1; Expiry := 1 + 2592000; Units := 10 |})
  /\ @ClaimTx_Execute sample_params (claim sender2 aaa) (db_with aaa 100) 7
     = (db_with aaa 100, Err ErrPublicKeyMismatch).
Proof.
  assert (Hpk : length (Prefix (ClaimTx_BaseTx (claim sender1 foo)))
                <> PublicKeyLen
                \/ Sender (ClaimTx_BaseTx (claim sender1 foo))
                   = Prefix (ClaimTx_BaseTx (claim sender1 foo))).
  { left. vm_compute. discriminate. }
  split; [exact Hpk|]. split.
  - destruct (proj2 (@ClaimTx_Execute_spec sample_params (claim sender1 foo)
                       empty_db 1) Hpk) as [Hok _].
    destruct Hok as (db' & Hex & Hinfo & _); [left; reflexivity|].
    exists db'. split; [exact Hex | exact Hinfo].
  - apply (proj1 (@ClaimTx_Execute_spec sample_params (claim sender2 aaa)
                    (db_with aaa 100) 7)).
    + reflexivity.
    + vm_compute. discriminate.
Defined.

(** The vectors of [TestClaimTx] (lines 42-102), run on the model with
    [ExpireNext] between them: the expected errors come out, and each
    successful claim leaves the sender as owner. *)
Example TestClaimTx_vectors :
  let E := @ExpiryTime sample_params in
  let exec := @ClaimTx_Execute sample_params in
  let expire := ExpireNext in
  let '(db0, r0) := exec (claim sender1 aaa) empty_db 1 in
  let '(db1, r1) := exec (claim sender1 foo) (expire db0 1 1 true) 1 in
  let '(db2, r2) := exec (claim sender1 foo) (expire db1 1 100 true) 100 in
  let '(db3, r3) :=
    exec (claim sender1 foo) (expire db2 100 (E * 2) true) (E * 2) in
  let '(db4, r4) :=
    exec (claim sender2 foo) (expire db3 (E * 2) (E * 4) true) (E * 4) in
  let '(db5, r5) :=
    exec (claim sender2 foo) (expire db4 (E * 4) (E * 4 + 3) true)
      (E * 4 + 3) in
  [r0; r1; r2; r3; r4; r5]
  = [Err ErrPublicKeyMismatch; Ok (); Err ErrPrefixNotExpired; Ok (); Ok ();
     Err ErrPrefixNotExpired]
  /\ Owner <$> infos db1 !! foo = Some sender1
  /\ Owner <$> infos db3 !! foo = Some sender1
  /\ Owner <$> infos db4 !! foo = Some sender2.
Proof. vm_compute. repeat split; reflexivity. Qed.

End RegistryChecks.

(** ** The block engine *)

Module EngineProofs.
Import Chain Vm.

(** *** Machine arithmetic *)

Lemma wrap_u64_small (z : Z) : 0 <= z < 2 ^ 64 -> wrap_u64 z = z.
Proof. intros Hz. unfold wrap_u64. by apply Z.mod_small. Qed.

Lemma wrap_u64_range (z : Z) : 0 <= wrap_u64 z < 2 ^ 64.
Proof. unfold wrap_u64. apply Z.mod_pos_bound. lia. Qed.

Lemma wrap_i64_small (z : Z) : - 2 ^ 63 <= z < 2 ^ 63 -> wrap_i64 z = z.
Proof. intros Hz. unfold wrap_i64. rewrite Z.mod_small; lia. Qed.

Lemma wrap_i64_range (z : Z) : - 2 ^ 63 <= wrap_i64 z < 2 ^ 63.
Proof.
  unfold wrap_i64.
  pose proof (Z.mod_pos_bound (z + 2 ^ 63) (2 ^ 64) ltac:(lia)). lia.
Qed.

(** Converting an [int64] to [uint64] keeps the value modulo 2^64. *)
Lemma wrap_u64_i64 (z : Z) : wrap_u64 (wrap_i64 z) = wrap_u64 z.
Proof.
  unfold wrap_u64, wrap_i64.
  rewrite Zminus_mod, Z.mod_mod by lia.
  rewrite <- Zminus_mod. f_equal. lia.
Qed.

Lemma wrap_u64_add_r (a b : Z) : wrap_u64 (a + wrap_u64 b) = wrap_u64 (a + b).
Proof. unfold wrap_u64. by rewrite Zplus_mod_idemp_r. Qed.

(** *** Verified, Rejected, Accepted *)

Lemma Accepted_removes (vm : VM) (b : Block) :
  verifiedBlocks (Accepted vm b) !! blk_ID b = None.
Proof. apply lookup_delete_eq. Qed.

Lemma Rejected_removes (vm : VM) (b : Block) :
  verifiedBlocks (Rejected vm b) !! blk_ID b = None.
Proof. apply lookup_delete_eq. Qed.

Lemma run_app (vm : VM) (cs1 cs2 : list call) :
  run vm (cs1 ++ cs2) = run (run vm cs1) cs2.
Proof. apply foldl_app. Qed.

Lemma lifecycle_from_app (dec : gset ID) (cs1 cs2 : list call) :
  lifecycle_from dec (cs1 ++ cs2) = true -> lifecycle_from dec cs1 = true.
Proof.
  revert dec. induction cs1 as [|c cs1 IH]; intros dec; [done|].
  destruct c; simpl; [|apply IH..].
  intros [Hb Hrest]%andb_true_iff. rewrite Hb. simpl. by apply IH.
Qed.

(** The invariant, from any state: what is in [verifiedBlocks] stays apart
    from the ids decided before and during the run. *)
Lemma run_disjoint (cs : list call) (vm : VM) (dec : gset ID) :
  dom (verifiedBlocks vm) ## dec ->
  lifecycle_from dec cs = true ->
  dom (verifiedBlocks (run vm cs)) ## dec ∪ decided cs.
Proof.
  revert vm dec. induction cs as [|c cs IH]; intros vm dec Hdis Hlife.
  { simpl. set_solver. }
  destruct c as [b|b|b]; simpl in *.
  - apply andb_true_iff in Hlife as [Hb Hrest].
    apply bool_decide_eq_true in Hb.
    apply IH; [|done]. unfold Verified. simpl. rewrite dom_insert_L.
    set_solver.
  - replace (dec ∪ ({[blk_ID b]} ∪ decided cs))
      with (({[blk_ID b]} ∪ dec) ∪ decided cs) by set_solver.
    apply IH; [|done]. unfold Rejected. simpl. rewrite dom_delete_L.
    set_solver.
  - replace (dec ∪ ({[blk_ID b]} ∪ decided cs))
      with (({[blk_ID b]} ∪ dec) ∪ decided cs) by set_solver.
    apply IH; [|done]. unfold Accepted. simpl. rewrite dom_delete_L.
    set_solver.
Qed.

(** C9, as amended. [Accepted] and [Rejected] each remove the block's id from
    [verifiedBlocks]; and in every state a VM with an empty [verifiedBlocks]
    reaches by calls that verify no block already accepted or rejected,
    [verifiedBlocks] holds no id passed to [Accepted] or [Rejected]. *)
Theorem verifiedBlocks_disjoint_decided :
  (forall vm b,
     (blk_ID b ∉ dom (verifiedBlocks (Accepted vm b)))
     /\ (blk_ID b ∉ dom (verifiedBlocks (Rejected vm b))))
  /\ (forall vm cs,
        verifiedBlocks vm = ∅ -> lifecycle cs = true ->
        forall cs1 cs2, cs = cs1 ++ cs2 ->
          dom (verifiedBlocks (run vm cs1)) ## decided cs1).
Proof.
  split.
  - intros vm b. split; apply not_elem_of_dom.
    + apply Accepted_removes.
    + apply Rejected_removes.
  - intros vm cs Hinit Hlife cs1 cs2 ->.
    apply lifecycle_from_app in Hlife.
    pose proof (run_disjoint cs1 vm ∅) as Hrun.
    rewrite Hinit, dom_empty_L in Hrun.
    specialize (Hrun ltac:(set_solver) Hlife). set_solver.
Qed.

(** *** readWindow *)

Lemma Reaches_functional (vm : VM) (b : Block) (n m : nat) :
  Reaches vm b n -> Reaches vm b m -> n = m.
Proof.
  intros Hn. revert m.
  induction Hn as [b Hgen | b p n Hne Hget Hn IH]; intros m Hm.
  - destruct Hm; [reflexivity | contradiction].
  - destruct Hm as [|b q m Hne' Hget' Hm]; [contradiction|].
    rewrite Hget in Hget'. injection Hget' as <-. f_equal. by apply IH.
Qed.

Section ReadWindow.
Context `{ChainParams} {St : Type}.
Variables (vm : VM) (currTime : Z) (lastID : ID).
Variable f : Block -> St -> bool * St.

(** On a chain that goes back to genesis through stored blocks the loop ends
    within as many iterations as the chain has blocks, without a panic. *)
Lemma readWindow_loop_total (b : Block) (n : nat) :
  Reaches vm b n ->
  forall fuel s, (n < fuel)%nat ->
    exists s', readWindow_loop fuel vm currTime lastID f b s = Some (Ok s').
Proof.
  induction 1 as [b Hgen | b p n Hne Hget Hn IH]; intros fuel s Hfuel;
    (destruct fuel as [|fuel]; [lia|]); simpl;
    destruct (in_window currTime b || bool_decide (blk_ID b = lastID));
    eauto; destruct (f b s) as [[] s1]; simpl; eauto.
  - rewrite bool_decide_eq_true_2 by done. eauto.
  - rewrite bool_decide_eq_false_2 by done. rewrite Hget.
    apply IH. lia.
Qed.

(** The instrumented loop makes the walk and records it. *)
Lemma readWindow_loop_walk (b : Block) (n : nat) :
  Reaches vm b n ->
  forall fuel s tr0, (n < fuel)%nat ->
    exists tr s',
      readWindow_loop fuel vm currTime lastID (traced f) b (s, tr0)
      = Some (Ok (s', tr0 ++ tr))
      /\ walk vm currTime lastID f b s tr s'.
Proof.
  induction 1 as [b Hgen | b p n Hne Hget Hn IH]; intros fuel s tr0 Hfuel;
    (destruct fuel as [|fuel]; [lia|]); simpl;
    destruct (in_window currTime b || bool_decide (blk_ID b = lastID))
      eqn:Hcond;
    try (exists [], s; rewrite app_nil_r; split;
         [reflexivity | by apply walk_out]);
    unfold traced at 1; simpl; destruct (f b s) as [[] s1] eqn:Ef; simpl;
    try (exists [(b, false)], s1; split;
         [reflexivity | by apply walk_stop]).
  - rewrite bool_decide_eq_true_2 by done.
    exists [(b, true)], s1. split; [reflexivity | by apply walk_genesis].
  - rewrite bool_decide_eq_false_2 by done. rewrite Hget.
    destruct (IH fuel s1 (tr0 ++ [(b, true)]) ltac:(lia))
      as (tr & s' & Hloop & Hwalk).
    exists ((b, true) :: tr), s'. split.
    + rewrite Hloop. by rewrite <- app_assoc.
    + by eapply walk_parent.
Qed.

Lemma walk_head (b : Block) (s s' : St) (tr : list (Block * bool)) :
  walk vm currTime lastID f b s tr s' ->
  (tr = []
   /\ in_window currTime b || bool_decide (blk_ID b = lastID) = false)
  \/ (exists c tr', tr = (b, c) :: tr'
      /\ in_window currTime b || bool_decide (blk_ID b = lastID) = true).
Proof. destruct 1; eauto. Qed.

(** Child-to-parent order: a call follows another only on the parent of the
    block of the earlier call, which returned true and was not genesis. *)
Lemma walk_linked (b : Block) (s s' : St) (tr : list (Block * bool)) :
  walk vm currTime lastID f b s tr s' ->
  forall i x c y c',
    tr !! i = Some (x, c) -> tr !! S i = Some (y, c') ->
    c = true /\ Prnt x <> emptyID /\ getBlock vm (Prnt x) = Ok y.
Proof.
  induction 1 as [| | |b s s1 p tr s' Hcond Hf Hne Hget Hwalk IH];
    intros i x c y c' Hi HSi; try (destruct i; discriminate).
  destruct i as [|i]; simpl in *.
  - injection Hi as <- <-.
    destruct (walk_head _ _ _ _ Hwalk) as [[-> _] | (c0 & tr' & -> & _)];
      [discriminate|].
    injection HSi as <- <-. done.
  - by eapply IH.
Qed.

(** Where the walk ends: on a false answer, on genesis, or before a parent
    for which the loop condition fails. *)
Lemma walk_last (b : Block) (s s' : St) (tr : list (Block * bool)) :
  walk vm currTime lastID f b s tr s' ->
  forall x c,
    last tr = Some (x, c) ->
    c = false \/ Prnt x = emptyID
    \/ exists p, getBlock vm (Prnt x) = Ok p
                 /\ in_window currTime p || bool_decide (blk_ID p = lastID)
                    = false.
Proof.
  induction 1 as [| | |b s s1 p tr s' Hcond Hf Hne Hget Hwalk IH];
    intros x c Hlast; try discriminate.
  - injection Hlast as <- <-. by left.
  - injection Hlast as <- <-. right. by left.
  - destruct (walk_head _ _ _ _ Hwalk) as [[-> Hout] | (c0 & tr' & -> & _)].
    + injection Hlast as <- <-. right. right. eauto.
    + apply IH. by rewrite last_cons_cons in Hlast.
Qed.

(** Every call after the first is on a stored proper ancestor, for which
    the loop condition held. *)
Lemma walk_tail (b : Block) (s s' : St) (tr : list (Block * bool)) :
  well_keyed vm ->
  walk vm currTime lastID f b s tr s' ->
  forall m, Reaches vm b m ->
  forall i y c,
    tr !! S i = Some (y, c) ->
    in_window currTime y || bool_decide (blk_ID y = lastID) = true
    /\ exists m', (m' < m)%nat /\ Reaches vm y m'
                  /\ getBlock vm (blk_ID y) = Ok y.
Proof.
  intros Hkeyed.
  induction 1 as [| | |b s s1 p tr s' Hcond Hf Hne Hget Hwalk IH];
    intros m Hm i y c Hi; try (destruct i; discriminate).
  destruct Hm as [|b q m Hne' Hget' Hm]; [contradiction|].
  rewrite Hget in Hget'. injection Hget' as <-.
  destruct i as [|i]; simpl in Hi.
  - destruct (walk_head _ _ _ _ Hwalk) as [[-> _] | (c0 & tr' & -> & Hc)];
      [discriminate|].
    injection Hi as <- <-. split; [done|].
    exists m. split; [lia|]. split; [done|].
    by rewrite (Hkeyed _ _ Hget).
  - destruct (IH m Hm i y c Hi) as (Hc & m' & Hlt & Hr & Hg).
    split; [done|]. exists m'. split; [lia | done].
Qed.

(** Recording the calls changes nothing of what the loop does. *)
Lemma readWindow_loop_traced (fuel : nat) (b : Block) (s : St)
    (tr0 : list (Block * bool)) :
  outcome_rel (fun s1 st => s1 = st.1)
    (readWindow_loop fuel vm currTime lastID f b s)
    (readWindow_loop fuel vm currTime lastID (traced f) b (s, tr0)).
Proof.
  revert b s tr0. induction fuel as [|fuel IH]; intros b s tr0; simpl; [done|].
  destruct (in_window currTime b || bool_decide (blk_ID b = lastID)); [|done].
  unfold traced at 1. simpl. destruct (f b s) as [[] s1]; simpl; [|done].
  destruct (bool_decide (Prnt b = emptyID)); [done|].
  destruct (getBlock vm (Prnt b)); simpl; [apply IH | done..].
Qed.

End ReadWindow.

(** C6. On a store that keeps every block under its id and from a block
    named [lastID] whose ancestors go back to genesis, [readWindow] ends;
    its first call of the callback is on the block named [lastID], whatever
    its age; every later call is on a block with
    [currTime - timestamp <= LookbackWindow]; each call after another is on
    the parent of the block before, which got the answer true and was not
    genesis, so nothing is visited after a false answer or after genesis;
    and the walk goes on until such an end or a parent out of the window. *)
Theorem readWindow_visits `{ChainParams} {St : Type} (vm : VM) (currTime : Z)
    (lastID : ID) (f : Block -> St -> bool * St) (s : St) (b0 : Block)
    (n fuel : nat) :
  well_keyed vm -> getBlock vm lastID = Ok b0 -> Reaches vm b0 n ->
  (n < fuel)%nat ->
  exists s' c0 rest,
    readWindow fuel vm currTime lastID (traced f) (s, [])
    = Some (Ok (s', (b0, c0) :: rest))
    /\ readWindow fuel vm currTime lastID f s = Some (Ok s')
    /\ (forall b c, (b, c) ∈ rest -> in_window currTime b = true)
    /\ (forall i b c b' c',
          ((b0, c0) :: rest) !! i = Some (b, c) ->
          ((b0, c0) :: rest) !! S i = Some (b', c') ->
          c = true /\ Prnt b <> emptyID /\ getBlock vm (Prnt b) = Ok b')
    /\ (forall b c,
          last ((b0, c0) :: rest) = Some (b, c) ->
          c = false \/ Prnt b = emptyID
          \/ exists p, getBlock vm (Prnt b) = Ok p
                       /\ in_window currTime p = false).
Proof.
  intros Hkeyed Hget Hreach Hfuel.
  destruct (readWindow_loop_walk vm currTime lastID f b0 n Hreach fuel s []
              Hfuel) as (tr & s' & Hloop & Hwalk).
  simpl in Hloop.
  assert (Hid : blk_ID b0 = lastID) by (by apply Hkeyed).
  destruct (walk_head _ _ _ _ _ _ _ _ Hwalk)
    as [[_ Hout] | (c0 & rest & -> & _)].
  { rewrite bool_decide_eq_true_2 in Hout by done.
    by rewrite orb_true_r in Hout. }
  exists s', c0, rest.
  split; [by unfold readWindow; rewrite Hget|].
  split.
  { pose proof (readWindow_loop_traced vm currTime lastID f fuel b0 s [])
      as Hrel.
    rewrite Hloop in Hrel. unfold readWindow. rewrite Hget.
    destruct (readWindow_loop fuel vm currTime lastID f b0 s)
      as [[s1| |]|]; simpl in Hrel; try done. by subst. }
  split.
  { intros b c [i Hi]%list_elem_of_lookup.
    destruct (walk_tail _ _ _ _ _ _ _ _ Hkeyed Hwalk n Hreach i b c Hi)
      as (Hcond & m' & Hlt & Hr & Hg).
    apply orb_true_iff in Hcond as [Hw | Heq]; [done|].
    apply bool_decide_eq_true in Heq. rewrite Heq, Hget in Hg.
    injection Hg as ->.
    pose proof (Reaches_functional _ _ _ _ Hr Hreach). lia. }
  split; [apply (walk_linked _ _ _ _ _ _ _ _ Hwalk)|].
  intros b c Hlast.
  destruct (walk_last _ _ _ _ _ _ _ _ Hwalk b c Hlast)
    as [? | [? | (p & Hp & Hout)]]; auto.
  right. right. exists p. split; [done|].
  by apply orb_false_iff in Hout as [? _].
Qed.

(** *** Recents *)

Section Simulation.
Context `{ChainParams} {S1 S2 : Type}.
Variables (vm : VM) (currTime : Z) (lastID : ID).
Variable R : S1 -> S2 -> Prop.
Variables (f1 : Block -> S1 -> bool * S1) (f2 : Block -> S2 -> bool * S2).
Hypothesis f_related :
  forall b s1 s2, R s1 s2 ->
    (f1 b s1).1 = (f2 b s2).1 /\ R (f1 b s1).2 (f2 b s2).2.

(** Two callbacks that answer alike on related states drive the loop alike. *)
Lemma readWindow_loop_sim (fuel : nat) (b : Block) (s1 : S1) (s2 : S2) :
  R s1 s2 ->
  outcome_rel R (readWindow_loop fuel vm currTime lastID f1 b s1)
                (readWindow_loop fuel vm currTime lastID f2 b s2).
Proof.
  revert b s1 s2. induction fuel as [|fuel IH]; intros b s1 s2 HR; simpl;
    [done|].
  destruct (in_window currTime b || bool_decide (blk_ID b = lastID)); [|done].
  destruct (f_related b s1 s2 HR) as [Hc HR'].
  destruct (f1 b s1) as [c1 t1], (f2 b s2) as [c2 t2]; simpl in *. subst c2.
  destruct c1; simpl; [|done].
  destruct (bool_decide (Prnt b = emptyID)); [done|].
  destruct (getBlock vm (Prnt b)); simpl; [by apply IH | done..].
Qed.

End Simulation.

Lemma Recents_visit_txs (txs : list Transaction) (s : gset ID) :
  foldl (fun acc tx => {[ tx_ID tx ]} ∪ acc) s txs
  = list_to_set (tx_ID <$> txs) ∪ s.
Proof.
  revert s. induction txs as [|tx txs IH]; intros s; simpl.
  - set_solver.
  - rewrite IH. set_solver.
Qed.

Section Recents.
Context `{ChainParams}.

(** The sets [Recents] gathers are the ids of the window's blocks and of
    their transactions. *)
Lemma Recents_sets_window (fuel : nat) (vm : VM) (currTime : Z) (lastID : ID) :
  outcome_rel
    (fun (s : gset ID * gset ID) (w : list Block) =>
       s.1 = list_to_set (blk_ID <$> w)
       /\ s.2 = list_to_set (tx_ID <$> (w ≫= Txs)))
    (readWindow fuel vm currTime lastID Recents_visit (∅, ∅))
    (window fuel vm currTime lastID).
Proof.
  unfold window, readWindow.
  destruct (getBlock vm lastID) as [b| |]; simpl; try done.
  apply readWindow_loop_sim; [|done].
  intros b0 [bids tids] w [Hb Ht]; simpl in *. split; [done|]. subst.
  rewrite Recents_visit_txs, fmap_app, bind_app, fmap_app. simpl.
  rewrite app_nil_r. split; set_solver.
Qed.

Lemma elapsedWindows_ok (currTime : Z) (b : Block) :
  LookbackWindow <> 0 ->
  exists ew, elapsedWindows currTime b = Ok ew /\ 0 <= ew < 2 ^ 64.
Proof.
  intros HL. unfold elapsedWindows, i64_div.
  destruct (Z.eqb_spec LookbackWindow 0); [done|]. simpl.
  eexists. split; [reflexivity | apply wrap_u64_range].
Qed.

(** For a last block that is not in the future the number of windows is the
    quotient plus one, as written. *)
Lemma elapsedWindows_nonneg (currTime : Z) (b : Block) :
  0 < LookbackWindow -> 0 <= secondsSinceLast currTime b ->
  elapsedWindows currTime b
  = Ok (secondsSinceLast currTime b / LookbackWindow + 1).
Proof.
  intros HL He. unfold elapsedWindows, i64_div.
  destruct (Z.eqb_spec LookbackWindow 0); [lia|]. simpl. f_equal.
  pose proof (wrap_i64_range (currTime - Tmstmp b)) as Hr.
  fold (secondsSinceLast currTime b) in Hr.
  rewrite Z.quot_div_nonneg by lia.
  assert (0 <= secondsSinceLast currTime b / LookbackWindow
          <= secondsSinceLast currTime b).
  { split; [apply Z.div_pos; lia|].
    apply Z.div_le_upper_bound; [lia|]. nia. }
  rewrite wrap_i64_small by lia.
  rewrite (wrap_u64_small (_ / _)) by lia.
  apply wrap_u64_small. lia.
Qed.

Lemma newBlockCost_rising (currTime : Z) (b : Block) :
  secondsSinceLast currTime b < BlockTarget ->
  newBlockCost currTime b
  = wrap_u64 (Z.max (Cost b) MinBlockCost
              + (BlockTarget - secondsSinceLast currTime b)).
Proof.
  intros He. unfold newBlockCost.
  destruct (Z.ltb_spec (secondsSinceLast currTime b) BlockTarget); [|lia].
  rewrite wrap_u64_i64, wrap_u64_add_r.
  destruct (Z.ltb_spec (Cost b) MinBlockCost); f_equal; lia.
Qed.

Lemma newBlockCost_falling (currTime : Z) (b : Block) :
  is_u64 MinBlockCost -> is_u64 (Cost b) -> 0 <= BlockTarget ->
  BlockTarget <= secondsSinceLast currTime b ->
  newBlockCost currTime b
  = Z.max MinBlockCost
      (Z.max (Cost b) MinBlockCost
       - (secondsSinceLast currTime b - BlockTarget)).
Proof.
  unfold is_u64. intros HM HC HT He. unfold newBlockCost.
  pose proof (wrap_i64_range (currTime - Tmstmp b)) as Hr.
  fold (secondsSinceLast currTime b) in Hr.
  destruct (Z.ltb_spec (secondsSinceLast currTime b) BlockTarget); [lia|].
  rewrite (wrap_i64_small (_ - BlockTarget)) by lia.
  rewrite (wrap_u64_small (_ - BlockTarget)) by lia.
  destruct (Z.ltb_spec (Cost b) MinBlockCost).
  - rewrite Z.sub_diag, (wrap_u64_small 0) by lia.
    destruct (Z.ltb_spec (secondsSinceLast currTime b - BlockTarget) 0); lia.
  - rewrite (wrap_u64_small (Cost b - MinBlockCost)) by lia.
    destruct (Z.ltb_spec (secondsSinceLast currTime b - BlockTarget)
                (Cost b - MinBlockCost)); [|lia].
    rewrite wrap_u64_small; lia.
Qed.

Lemma newBlockCost_floor (currTime : Z) (b : Block) :
  is_u64 MinBlockCost -> is_u64 (Cost b) -> 0 <= BlockTarget ->
  BlockTarget <= secondsSinceLast currTime b
  \/ Z.max (Cost b) MinBlockCost
     + (BlockTarget - secondsSinceLast currTime b) < 2 ^ 64 ->
  MinBlockCost <= newBlockCost currTime b.
Proof.
  unfold is_u64. intros HM HC HT Hno.
  destruct (Z.lt_ge_cases (secondsSinceLast currTime b) BlockTarget) as [He|He].
  - rewrite newBlockCost_rising by done.
    rewrite wrap_u64_small; lia.
  - rewrite newBlockCost_falling by (unfold is_u64; lia). lia.
Qed.

Lemma newBlockCost_clamp (currTime : Z) (b : Block) :
  newBlockCost currTime (clamp_floors b) = newBlockCost currTime b.
Proof.
  unfold newBlockCost, secondsSinceLast, clamp_floors. simpl.
  destruct (Z.ltb_spec (Cost b) MinBlockCost),
    (Z.ltb_spec (Z.max (Cost b) MinBlockCost) MinBlockCost); try lia.
  - by rewrite Z.max_r by lia.
  - by rewrite Z.max_l by lia.
Qed.

Lemma newMinDifficulty_over (currTime : Z) (b : Block) (n : Z) :
  TargetTransactions < n ->
  newMinDifficulty currTime b n
  = Ok (wrap_u64 (Z.max (Difficulty b) MinDifficulty + 1)).
Proof.
  intros Hn. unfold newMinDifficulty.
  destruct (Z.ltb_spec TargetTransactions n); [|lia].
  destruct (Z.ltb_spec (Difficulty b) MinDifficulty); do 3 f_equal; lia.
Qed.

Lemma newMinDifficulty_at (currTime : Z) (b : Block) (n : Z) :
  n = TargetTransactions ->
  newMinDifficulty currTime b n = Ok (Z.max (Difficulty b) MinDifficulty).
Proof.
  intros ->. unfold newMinDifficulty. rewrite Z.ltb_irrefl.
  destruct (Z.ltb_spec (Difficulty b) MinDifficulty); f_equal; lia.
Qed.

Lemma newMinDifficulty_under (currTime : Z) (b : Block) (n ew : Z) :
  is_u64 MinDifficulty -> is_u64 (Difficulty b) ->
  n < TargetTransactions ->
  elapsedWindows currTime b = Ok ew -> 0 <= ew ->
  newMinDifficulty currTime b n
  = Ok (Z.max MinDifficulty (Difficulty b - ew))
  /\ Z.max MinDifficulty (Difficulty b - ew)
     = Z.max MinDifficulty (Z.max (Difficulty b) MinDifficulty - ew).
Proof.
  unfold is_u64. intros HM HD Hn Hew Hpos. split; [|lia].
  unfold newMinDifficulty.
  destruct (Z.ltb_spec TargetTransactions n); [lia|].
  destruct (Z.ltb_spec n TargetTransactions); [|lia].
  rewrite Hew. simpl.
  destruct (Z.ltb_spec (Difficulty b) MinDifficulty).
  - rewrite Z.sub_diag, (wrap_u64_small 0) by lia.
    destruct (Z.ltb_spec ew 0); [lia|]. f_equal. lia.
  - rewrite (wrap_u64_small (Difficulty b - MinDifficulty)) by lia.
    destruct (Z.ltb_spec ew (Difficulty b - MinDifficulty)); f_equal; [|lia].
    rewrite wrap_u64_small; lia.
Qed.

Lemma newMinDifficulty_clamp (currTime : Z) (b : Block) (n : Z) :
  newMinDifficulty currTime (clamp_floors b) n = newMinDifficulty currTime b n.
Proof.
  unfold newMinDifficulty, elapsedWindows, secondsSinceLast, clamp_floors.
  simpl.
  destruct (Z.ltb_spec (Difficulty b) MinDifficulty),
    (Z.ltb_spec (Z.max (Difficulty b) MinDifficulty) MinDifficulty); try lia.
  - by rewrite Z.max_r by lia.
  - by rewrite Z.max_l by lia.
Qed.

Lemma newMinDifficulty_ok (currTime : Z) (b : Block) (n : Z) :
  LookbackWindow <> 0 -> exists d, newMinDifficulty currTime b n = Ok d.
Proof.
  intros HL. unfold newMinDifficulty.
  destruct (elapsedWindows_ok currTime b HL) as (ew & -> & _). simpl.
  repeat case_match; eauto.
Qed.

(** [Recents] returns: the window is read without a panic, then the two
    adjustments are made. *)
Lemma Recents_returns (fuel : nat) (vm : VM) (currTime : Z) (lastBlock b0 : Block)
    (n : nat) :
  LookbackWindow <> 0 ->
  getBlock vm (blk_ID lastBlock) = Ok b0 -> Reaches vm b0 n -> (n < fuel)%nat ->
  exists bids tids diff,
    Recents fuel vm currTime lastBlock
    = Some (Ok (bids, tids, newBlockCost currTime lastBlock, diff))
    /\ newMinDifficulty currTime lastBlock (Z.of_nat (size tids)) = Ok diff
    /\ exists w, window fuel vm currTime (blk_ID lastBlock) = Some (Ok w)
                 /\ bids = list_to_set (blk_ID <$> w)
                 /\ tids = list_to_set (tx_ID <$> (w ≫= Txs)).
Proof.
  intros HL Hget Hreach Hfuel.
  destruct (readWindow_loop_total vm currTime (blk_ID lastBlock) Recents_visit
              b0 n Hreach fuel (∅, ∅) Hfuel) as ([bids tids] & Hloop).
  assert (Hrw : readWindow fuel vm currTime (blk_ID lastBlock) Recents_visit
                  (∅, ∅) = Some (Ok (bids, tids))).
  { unfold readWindow. by rewrite Hget. }
  destruct (newMinDifficulty_ok currTime lastBlock (Z.of_nat (size tids)) HL)
    as [diff Hdiff].
  exists bids, tids, diff. split; [|split; [done|]].
  - unfold Recents. rewrite Hrw. simpl. by rewrite Hdiff.
  - pose proof (Recents_sets_window fuel vm currTime (blk_ID lastBlock))
      as Hrel.
    rewrite Hrw in Hrel.
    destruct (window fuel vm currTime (blk_ID lastBlock)) as [[w| |]|];
      simpl in Hrel; try done.
    exists w. by destruct Hrel.
Qed.

End Recents.

Lemma secondsSinceLast_exact `{ChainParams} (currTime : Z) (b : Block) :
  is_i64 (currTime - Tmstmp b) ->
  secondsSinceLast currTime b = currTime - Tmstmp b.
Proof. unfold is_i64, secondsSinceLast. apply wrap_i64_small. Qed.

Lemma Recents_clamp `{ChainParams} (fuel : nat) (vm : VM) (currTime : Z)
    (b : Block) :
  Recents fuel vm currTime (clamp_floors b) = Recents fuel vm currTime b.
Proof.
  unfold Recents. change (blk_ID (clamp_floors b)) with (blk_ID b).
  destruct (readWindow fuel vm currTime (blk_ID b) Recents_visit (∅, ∅))
    as [[[bids tids]| |]|]; simpl; try done.
  by rewrite newBlockCost_clamp, newMinDifficulty_clamp.
Qed.

(** C4, as amended. [Recents] returns, and with
    [elapsed = currTime - lastBlock.timestamp] (in [int64]) and
    [base = max(lastBlock's cost, MinBlockCost)]: if [elapsed < BlockTarget]
    the cost is [base + (BlockTarget - elapsed)] in [uint64] arithmetic;
    otherwise it is [max(MinBlockCost, base - (elapsed - BlockTarget))]; it
    is not below [MinBlockCost] unless that sum overflows. *)
Theorem Recents_block_cost `{ChainParams} (fuel : nat) (vm : VM) (currTime : Z)
    (lastBlock b0 : Block) (n : nat) :
  is_u64 MinBlockCost -> is_u64 (Cost lastBlock) -> 0 <= BlockTarget ->
  LookbackWindow <> 0 ->
  getBlock vm (blk_ID lastBlock) = Ok b0 -> Reaches vm b0 n -> (n < fuel)%nat ->
  exists bids tids cost diff,
    Recents fuel vm currTime lastBlock = Some (Ok (bids, tids, cost, diff))
    /\ (secondsSinceLast currTime lastBlock < BlockTarget ->
        cost = wrap_u64 (Z.max (Cost lastBlock) MinBlockCost
                         + (BlockTarget - secondsSinceLast currTime lastBlock)))
    /\ (BlockTarget <= secondsSinceLast currTime lastBlock ->
        cost = Z.max MinBlockCost
                 (Z.max (Cost lastBlock) MinBlockCost
                  - (secondsSinceLast currTime lastBlock - BlockTarget)))
    /\ (BlockTarget <= secondsSinceLast currTime lastBlock
        \/ Z.max (Cost lastBlock) MinBlockCost
           + (BlockTarget - secondsSinceLast currTime lastBlock) < 2 ^ 64 ->
        MinBlockCost <= cost).
Proof.
  intros HM HC HT HL Hget Hreach Hfuel.
  destruct (Recents_returns fuel vm currTime lastBlock b0 n HL Hget Hreach
              Hfuel) as (bids & tids & diff & HR & _).
  exists bids, tids, (newBlockCost currTime lastBlock), diff.
  split; [done|]. split; [apply newBlockCost_rising|].
  split; [by apply newBlockCost_falling | by apply newBlockCost_floor].
Qed.

(** C5, as amended. [Recents] returns, [n] being the number of distinct
    transaction ids of the blocks in the window and
    [base = max(lastBlock's difficulty, MinDifficulty)]: if
    [n > TargetTransactions] the difficulty is [base + 1] in [uint64]
    arithmetic; if [n < TargetTransactions] it is
    [max(MinDifficulty, lastDiff - elapsedWindows)], where [elapsedWindows]
    is [elapsed / LookbackWindow + 1] when [elapsed >= 0]; if
    [n == TargetTransactions] it is [base]. *)
Theorem Recents_min_difficulty `{ChainParams} (fuel : nat) (vm : VM)
    (currTime : Z) (lastBlock b0 : Block) (n : nat) :
  is_u64 MinDifficulty -> is_u64 (Difficulty lastBlock) ->
  0 < LookbackWindow ->
  getBlock vm (blk_ID lastBlock) = Ok b0 -> Reaches vm b0 n -> (n < fuel)%nat ->
  exists bids tids cost diff w,
    Recents fuel vm currTime lastBlock = Some (Ok (bids, tids, cost, diff))
    /\ window fuel vm currTime (blk_ID lastBlock) = Some (Ok w)
    /\ tids = list_to_set (tx_ID <$> (w ≫= Txs))
    /\ (TargetTransactions < Z.of_nat (size tids) ->
        diff = wrap_u64 (Z.max (Difficulty lastBlock) MinDifficulty + 1))
    /\ (Z.of_nat (size tids) < TargetTransactions ->
        exists ew,
          elapsedWindows currTime lastBlock = Ok ew
          /\ diff = Z.max MinDifficulty (Difficulty lastBlock - ew)
          /\ (0 <= secondsSinceLast currTime lastBlock ->
              ew = secondsSinceLast currTime lastBlock / LookbackWindow + 1))
    /\ (Z.of_nat (size tids) = TargetTransactions ->
        diff = Z.max (Difficulty lastBlock) MinDifficulty).
Proof.
  intros HM HD HL Hget Hreach Hfuel.
  assert (HL0 : LookbackWindow <> 0) by lia.
  destruct (Recents_returns fuel vm currTime lastBlock b0 n HL0 Hget
              Hreach Hfuel)
    as (bids & tids & diff & HR & Hdiff & w & Hw & _ & Htids).
  exists bids, tids, (newBlockCost currTime lastBlock), diff, w.
  do 3 (split; [done|]). split; [|split].
  - intros Hn. rewrite newMinDifficulty_over in Hdiff by done.
    by injection Hdiff.
  - intros Hn.
    destruct (elapsedWindows_ok currTime lastBlock HL0)
      as (ew & Hew & Hrange).
    exists ew. split; [done|]. split.
    + destruct (newMinDifficulty_under currTime lastBlock _ ew HM HD Hn Hew
                  (proj1 Hrange)) as [Heq _].
      rewrite Heq in Hdiff. by injection Hdiff.
    + intros He. rewrite elapsedWindows_nonneg in Hew by done.
      by injection Hew.
  - intros Hn. rewrite newMinDifficulty_at in Hdiff by done.
    by injection Hdiff.
Qed.

(** C10, as amended. For every [lastBlock], cost and difficulty are raised to
    their floors before the rules are applied: [Recents] returns what it
    returns for the block with both raised. The cost returned is at least
    [MinBlockCost] and the difficulty at least [MinDifficulty], unless the
    upward adjustment overflows [uint64]. *)
Theorem Recents_floors `{ChainParams} (fuel : nat) (vm : VM) (currTime : Z)
    (lastBlock b0 : Block) (n : nat) :
  is_u64 MinBlockCost -> is_u64 MinDifficulty ->
  is_u64 (Cost lastBlock) -> is_u64 (Difficulty lastBlock) ->
  0 <= BlockTarget -> LookbackWindow <> 0 ->
  getBlock vm (blk_ID lastBlock) = Ok b0 -> Reaches vm b0 n -> (n < fuel)%nat ->
  exists bids tids cost diff,
    Recents fuel vm currTime lastBlock = Some (Ok (bids, tids, cost, diff))
    /\ Recents fuel vm currTime (clamp_floors lastBlock)
       = Some (Ok (bids, tids, cost, diff))
    /\ (BlockTarget <= secondsSinceLast currTime lastBlock
        \/ Z.max (Cost lastBlock) MinBlockCost
           + (BlockTarget - secondsSinceLast currTime lastBlock) < 2 ^ 64 ->
        MinBlockCost <= cost)
    /\ (Z.of_nat (size tids) <= TargetTransactions
        \/ Z.max (Difficulty lastBlock) MinDifficulty + 1 < 2 ^ 64 ->
        MinDifficulty <= diff).
Proof.
  intros HMC HMD HC HD HT HL Hget Hreach Hfuel.
  destruct (Recents_returns fuel vm currTime lastBlock b0 n HL Hget Hreach
              Hfuel) as (bids & tids & diff & HR & Hdiff & _).
  exists bids, tids, (newBlockCost currTime lastBlock), diff.
  split; [done|]. split; [by rewrite Recents_clamp|].
  split; [by apply newBlockCost_floor|].
  intros Hno. unfold is_u64 in *.
  destruct (Z.lt_trichotomy (Z.of_nat (size tids)) TargetTransactions)
    as [Hn | [Hn | Hn]].
  - destruct (elapsedWindows_ok currTime lastBlock HL) as (ew & Hew & Hrange).
    destruct (newMinDifficulty_under currTime lastBlock _ ew HMD HD Hn Hew
                (proj1 Hrange)) as [Heq _].
    rewrite Heq in Hdiff. injection Hdiff as <-. lia.
  - rewrite newMinDifficulty_at in Hdiff by done. injection Hdiff as <-. lia.
  - rewrite newMinDifficulty_over in Hdiff by done. injection Hdiff as <-.
    rewrite wrap_u64_small; lia.
Qed.

End EngineProofs.

(** ** Evaluations on the sample data *)

Module SignerChecks.
Import Chain Samples SignerProofs.

Lemma toy_recovers : @recovers toy_secp256k1.
Proof.
  intros d k s. simpl. destruct (length d =? 32)%nat; [|discriminate].
  intros [= <-]. split; reflexivity.
Qed.

Lemma toy_valid_key (k : byte) : @valid_key toy_secp256k1 k.
Proof.
  intros d Hd. simpl. rewrite Hd. simpl. eauto.
Qed.

Lemma DeriveSender_Sign_witness :
  exists s m1 sig m2,
    @crypto_Sign toy_secp256k1 (replicate 32 x00) x07 = Ok s
    /\ @Sign toy_secp256k1 mem_empty (replicate 32 x00) x07 = (m1, Ok sig)
    /\ @DeriveSender toy_secp256k1 m1 (replicate 32 x00) sig = (m2, Ok x07)
    /\ recovered m2 = recovered mem_empty ++ [(replicate 32 x00, s)].
Proof.
  exact (@DeriveSender_Sign toy_secp256k1 mem_empty (replicate 32 x00) x07
           toy_recovers (toy_valid_key x07) eq_refl).
Defined.

Lemma DeriveSender_length_and_frame_witness :
  length (slice_bytes mem65 1%positive) = SignatureLength
  /\ slice_bytes
       (@DeriveSender toy_secp256k1 mem65 (replicate 32 x00) 1%positive).1
       1%positive
     = slice_bytes mem65 1%positive
  /\ @DeriveSender toy_secp256k1 mem_empty (replicate 32 x00) 1%positive
     = (mem_empty, Err ErrInvalidSignature).
Proof.
  pose proof (@DeriveSender_length_and_frame toy_secp256k1 mem65
                (replicate 32 x00) 1%positive) as [_ H65].
  pose proof (@DeriveSender_length_and_frame toy_secp256k1 mem_empty
                (replicate 32 x00) 1%positive) as [H0 _].
  assert (Hlen : length (slice_bytes mem65 1%positive) = SignatureLength)
    by reflexivity.
  split; [exact Hlen|]. split.
  - exact (proj1 (H65 Hlen)).
  - apply H0. vm_compute. discriminate.
Defined.

End SignerChecks.

Module EngineChecks.
Import Chain Vm Samples EngineProofs.

Lemma vm_of_well_keyed (blocks : list Block) (tip : ID) :
  well_keyed (vm_of blocks tip).
Proof.
  intros id b. unfold getBlock, GetBlock, vm_of. simpl.
  rewrite lookup_empty.
  destruct (list_to_map _ !! id) as [b'|] eqn:E; [|discriminate].
  intros [= ->].
  apply elem_of_list_to_map_2 in E.
  apply list_elem_of_fmap in E as (b' & [= -> ->] & _). reflexivity.
Qed.

Lemma vm0_reaches : Reaches vm0 g0 0.
Proof. by apply Reaches_genesis. Qed.

Lemma vm3_reaches : Reaches vm3 c3 2.
Proof.
  apply (Reaches_parent vm3 c3 c2); [done | reflexivity |].
  apply (Reaches_parent vm3 c2 c1); [done | reflexivity |].
  by apply Reaches_genesis.
Qed.

(** C4, a counterexample to the claim as stated: the last block's cost, 0,
    is below [MinBlockCost = 1], and no time has passed ([elapsed = 0 <
    BlockTarget = 1]); [Recents] returns the cost 2, not
    [lastCost + (BlockTarget - elapsed) = 1]. *)
Theorem Recents_cost_not_last_plus :
  exists bids tids diff,
    @Recents sample_params 1 vm0 100 g0 = Some (Ok (bids, tids, 2, diff))
    /\ 100 - Tmstmp g0 < @BlockTarget sample_params
    /\ Cost g0 + (@BlockTarget sample_params - (100 - Tmstmp g0)) = 1.
Proof.
  eexists _, _, _. split; [vm_compute; reflexivity|].
  split; vm_compute; reflexivity.
Qed.

Lemma Recents_block_cost_witness :
  exists bids tids cost diff,
    @Recents sample_params 1 vm0 100 g0 = Some (Ok (bids, tids, cost, diff))
    /\ cost = 2.
Proof.
  destruct (@Recents_block_cost sample_params 1 vm0 100 g0 g0 0)
    as (bids & tids & cost & diff & HR & Hrise & _ & _).
  - vm_compute. split; [discriminate | reflexivity].
  - vm_compute. split; [discriminate | reflexivity].
  - vm_compute. discriminate.
  - vm_compute. discriminate.
  - reflexivity.
  - exact vm0_reaches.
  - lia.
  - exists bids, tids, cost, diff. split; [exact HR|].
    rewrite Hrise; reflexivity.
Defined.

(** C5, a counterexample to the claim as stated: the window holds exactly
    [TargetTransactions = 10] distinct transaction ids and the last block's
    difficulty, 0, is below [MinDifficulty = 1]; [Recents] returns the
    difficulty 1, not the last block's difficulty unchanged. *)
Theorem Recents_difficulty_not_unchanged :
  exists bids tids cost,
    @Recents sample_params 1 vm_crowded 100 crowded
    = Some (Ok (bids, tids, cost, 1))
    /\ Z.of_nat (size tids) = @TargetTransactions sample_params
    /\ Difficulty crowded = 0.
Proof.
  eexists _, _, _. split; [vm_compute; reflexivity|].
  split; vm_compute; reflexivity.
Qed.

Lemma Recents_min_difficulty_witness :
  exists bids tids cost diff,
    @Recents sample_params 1 vm_crowded 100 crowded
    = Some (Ok (bids, tids, cost, diff))
    /\ (Z.of_nat (size tids) = 10 -> diff = 1).
Proof.
  destruct (@Recents_min_difficulty sample_params 1 vm_crowded 100 crowded
              crowded 0)
    as (bids & tids & cost & diff & w & HR & _ & _ & _ & _ & Hat).
  - vm_compute. split; [discriminate | reflexivity].
  - vm_compute. split; [discriminate | reflexivity].
  - reflexivity.
  - reflexivity.
  - by apply Reaches_genesis.
  - lia.
  - exists bids, tids, cost, diff. split; [exact HR|].
    intros Hn. rewrite (Hat Hn). reflexivity.
Defined.

(** C10, a counterexample to the claim as stated: the last block's cost is
    the largest [uint64] and no time has passed; the rise by
    [BlockTarget - elapsed = 1] wraps around, and [Recents] returns the cost
    0, below [MinBlockCost = 1]. *)
Theorem Recents_cost_below_floor :
  is_u64 (Cost g_max)
  /\ exists bids tids cost diff,
       @Recents sample_params 1 vm_max 100 g_max
       = Some (Ok (bids, tids, cost, diff))
       /\ cost < @MinBlockCost sample_params.
Proof.
  split; [vm_compute; split; [discriminate | reflexivity]|].
  eexists _, _, _, _. split; vm_compute; reflexivity.
Qed.

Lemma Recents_floors_witness :
  exists bids tids cost diff,
    @Recents sample_params 1 vm0 100 g0 = Some (Ok (bids, tids, cost, diff))
    /\ @MinBlockCost sample_params <= cost
    /\ @MinDifficulty sample_params <= diff.
Proof.
  destruct (@Recents_floors sample_params 1 vm0 100 g0 g0 0)
    as (bids & tids & cost & diff & HR & HRc & Hcost & Hdiff).
  - vm_compute. split; [discriminate | reflexivity].
  - vm_compute. split; [discriminate | reflexivity].
  - vm_compute. split; [discriminate | reflexivity].
  - vm_compute. split; [discriminate | reflexivity].
  - vm_compute. discriminate.
  - vm_compute. discriminate.
  - reflexivity.
  - exact vm0_reaches.
  - lia.
  - exists bids, tids, cost, diff. split; [exact HR|]. split.
    + apply Hcost. right. vm_compute. reflexivity.
    + apply Hdiff. right. vm_compute. reflexivity.
Defined.

Lemma readWindow_visits_witness :
  well_keyed vm3 /\ Reaches vm3 c3 2
  /\ exists s' c0 rest,
       @readWindow sample_params _ 3 vm3 150 3%N (traced count_all)
         (0%nat, [])
       = Some (Ok (s', (c3, c0) :: rest))
       /\ forall b c, (b, c) ∈ rest ->
                      @in_window sample_params 150 b = true.
Proof.
  split; [apply vm_of_well_keyed|]. split; [exact vm3_reaches|].
  destruct (@readWindow_visits sample_params nat vm3 150 3%N count_all 0%nat
              c3 2 3 (vm_of_well_keyed _ _) eq_refl vm3_reaches (le_n 3))
    as (s' & c0 & rest & Hrun & _ & Hin & _).
  exists s', c0, rest. split; [exact Hrun | exact Hin].
Defined.

(** The walk on the sample chain: the tip and its parent are visited, in
    that order; genesis, 150 seconds old, is not. *)
Example readWindow_vm3 :
  @readWindow sample_params _ 3 vm3 150 3%N (traced count_all) (0%nat, [])
  = Some (Ok (2%nat, [(c3, true); (c2, true)])).
Proof. vm_compute. reflexivity. Qed.

(** C9, a counterexample to the claim as stated: after [Verified(g0)],
    [Accepted(g0)], [Verified(g0)] the id of [g0] has been passed to
    [Accepted] and is in [verifiedBlocks]. *)
Theorem verified_again_after_accepted :
  verifiedBlocks vm0 = ∅
  /\ blk_ID g0 ∈ decided [CallVerified g0; CallAccepted g0; CallVerified g0]
  /\ blk_ID g0
     ∈ dom (verifiedBlocks
              (run vm0 [CallVerified g0; CallAccepted g0; CallVerified g0])).
Proof.
  split; [reflexivity|]. split.
  - simpl. set_solver.
  - apply elem_of_dom. exists g0. vm_compute. reflexivity.
Qed.

Lemma verifiedBlocks_disjoint_decided_witness :
  lifecycle [CallVerified g0; CallVerified c2; CallAccepted g0;
             CallRejected c2] = true
  /\ dom (verifiedBlocks
            (run vm0 [CallVerified g0; CallVerified c2; CallAccepted g0;
                      CallRejected c2]))
     ## decided [CallVerified g0; CallVerified c2; CallAccepted g0;
                 CallRejected c2].
Proof.
  assert (Hlife : lifecycle [CallVerified g0; CallVerified c2;
                             CallAccepted g0; CallRejected c2] = true)
    by (vm_compute; reflexivity).
  split; [exact Hlife|].
  exact (proj2 verifiedBlocks_disjoint_decided vm0 _ eq_refl Hlife _ []
           (eq_sym (app_nil_r _))).
Defined.

End EngineChecks.

(** ** The block engine's queries *)

Module QueryProofs.
Import Chain Vm EngineProofs.

Lemma sum_u64_snoc (ds : list Z) (d : Z) :
  sum_u64 (ds ++ [d]) = wrap_u64 (sum_u64 ds + d).
Proof. unfold sum_u64. by rewrite foldl_app. Qed.

(** A sum that stays below 2^64 does not wrap, and lies between the bounds
    of its terms taken as often as there are terms. *)
Lemma sum_u64_bounds (ds : list Z) (lo hi : Z) :
  0 <= lo ->
  Forall (fun d => lo <= d <= hi) ds ->
  Z.of_nat (length ds) * hi < 2 ^ 64 ->
  Z.of_nat (length ds) * lo <= sum_u64 ds <= Z.of_nat (length ds) * hi.
Proof.
  intros Hlo. induction ds as [|d ds IH] using rev_ind; intros Hall Hno.
  { unfold sum_u64. simpl. lia. }
  apply Forall_app in Hall as [Hds Hd]. rewrite Forall_singleton in Hd.
  rewrite length_app, Nat2Z.inj_add in *.
  change (Z.of_nat (length [d])) with 1 in *.
  rewrite !Z.mul_add_distr_r, !Z.mul_1_l in *.
  assert (Hlen : 0 <= Z.of_nat (length ds) * lo)
    by (apply Z.mul_nonneg_nonneg; lia).
  assert (Hlh : Z.of_nat (length ds) * lo <= Z.of_nat (length ds) * hi)
    by (apply Z.mul_le_mono_nonneg_l; lia).
  assert (Hno' : Z.of_nat (length ds) * hi < 2 ^ 64) by lia.
  specialize (IH Hds Hno').
  rewrite sum_u64_snoc, wrap_u64_small; lia.
Qed.

Section Queries.
Context `{ChainParams}.
Variables (vm : VM) (now : Z) (lastID : ID).

(** The window's loop appends to what it was given, at most one block per
    ancestor, and starts with the block it is on if the loop condition holds
    for it. *)
Lemma window_loop_extends (b : Block) (n : nat) :
  Reaches vm b n ->
  forall fuel w0, (n < fuel)%nat ->
    exists w,
      readWindow_loop fuel vm now lastID (fun b w => (true, w ++ [b])) b w0
      = Some (Ok (w0 ++ w))
      /\ (length w <= S n)%nat
      /\ (in_window now b || bool_decide (blk_ID b = lastID) = true ->
          exists w', w = b :: w').
Proof.
  induction 1 as [b Hgen | b p n Hne Hget Hn IH]; intros fuel w0 Hfuel;
    (destruct fuel as [|fuel]; [lia|]); simpl;
    destruct (in_window now b || bool_decide (blk_ID b = lastID)) eqn:Hcond;
    try (exists []; rewrite app_nil_r; repeat split;
         [simpl; lia | discriminate]).
  - rewrite bool_decide_eq_true_2 by done.
    exists [b]. repeat split; [simpl; lia | eauto].
  - rewrite bool_decide_eq_false_2 by done. rewrite Hget.
    destruct (IH fuel (w0 ++ [b]) ltac:(lia)) as (w & Hloop & Hlen & _).
    exists (b :: w). rewrite Hloop, <- app_assoc.
    repeat split; [simpl; lia | eauto].
Qed.

(** [ValidBlockID]'s walk finds the id exactly when the window holds a block
    of that id. *)
Lemma ValidBlockID_loop (blockID : ID) (b : Block) (n : nat) :
  Reaches vm b n ->
  forall fuel w0, (n < fuel)%nat ->
    exists w,
      readWindow_loop fuel vm now lastID (fun b w => (true, w ++ [b])) b w0
      = Some (Ok (w0 ++ w))
      /\ readWindow_loop fuel vm now lastID (ValidBlockID_visit blockID) b
           false
         = Some (Ok (bool_decide (blockID ∈ blk_ID <$> w))).
Proof.
  induction 1 as [b Hgen | b p n Hne Hget Hn IH]; intros fuel w0 Hfuel.
  - destruct (window_loop_extends b 0 (Reaches_genesis vm b Hgen) fuel w0
                Hfuel) as (w & Hw & _ & _).
    exists w. split; [done|].
    destruct fuel as [|fuel]; [lia|]. simpl in *.
    destruct (in_window now b || bool_decide (blk_ID b = lastID)).
    + rewrite bool_decide_eq_true_2 in Hw by done.
      injection Hw as Hw. apply app_inv_head in Hw as <-.
      unfold ValidBlockID_visit. simpl.
      destruct (decide (blk_ID b = blockID)) as [<-|Hid].
      * rewrite bool_decide_eq_true_2 by done. simpl.
        by rewrite bool_decide_eq_true_2 by set_solver.
      * rewrite (bool_decide_eq_false_2 (blk_ID b = blockID)) by done. simpl.
        rewrite bool_decide_eq_true_2 by done.
        by rewrite bool_decide_eq_false_2 by set_solver.
    + injection Hw as Hw.
      rewrite <- (app_nil_r w0) in Hw at 1. apply app_inv_head in Hw as <-.
      by rewrite bool_decide_eq_false_2 by set_solver.
  - destruct (window_loop_extends b (S n)
                (Reaches_parent vm b p n Hne Hget Hn) fuel w0 Hfuel)
      as (w & Hw & _ & _).
    exists w. split; [done|].
    destruct fuel as [|fuel]; [lia|]. simpl in *.
    destruct (in_window now b || bool_decide (blk_ID b = lastID)).
    + rewrite bool_decide_eq_false_2 in Hw by done. rewrite Hget in Hw.
      destruct (IH fuel (w0 ++ [b]) ltac:(lia)) as (w' & Hw' & Hv).
      rewrite Hw' in Hw. injection Hw as Hw.
      rewrite <- app_assoc in Hw. apply app_inv_head in Hw as <-.
      unfold ValidBlockID_visit at 1. simpl.
      destruct (decide (blk_ID b = blockID)) as [<-|Hid].
      * rewrite bool_decide_eq_true_2 by done. simpl.
        by rewrite bool_decide_eq_true_2 by set_solver.
      * rewrite (bool_decide_eq_false_2 (blk_ID b = blockID)) by done. simpl.
        rewrite bool_decide_eq_false_2 by done. rewrite Hget, Hv.
        do 2 f_equal. apply bool_decide_ext. set_solver.
    + injection Hw as Hw.
      rewrite <- (app_nil_r w0) in Hw at 1. apply app_inv_head in Hw as <-.
      by rewrite bool_decide_eq_false_2 by set_solver.
Qed.

End Queries.

(** X3. When the preferred block is stored and its ancestors go back to
    genesis, [ValidBlockID] returns, and it answers true exactly when the id
    is that of a block in the lookback window of the preferred block. *)
Theorem ValidBlockID_window `{ChainParams} (fuel : nat) (vm : VM) (now : Z)
    (blockID : ID) (b0 : Block) (n : nat) :
  getBlock vm (preferred vm) = Ok b0 -> Reaches vm b0 n -> (n < fuel)%nat ->
  exists w,
    window fuel vm now (preferred vm) = Some (Ok w)
    /\ ValidBlockID fuel vm now blockID
       = Some (Ok (bool_decide (blockID ∈ blk_ID <$> w))).
Proof.
  intros Hget Hreach Hfuel.
  destruct (ValidBlockID_loop vm now (preferred vm) blockID b0 n Hreach fuel
              [] Hfuel) as (w & Hw & Hv).
  exists w. unfold window, ValidBlockID, readWindow. by rewrite Hget.
Qed.

(** X4. On a store that keeps blocks under their ids, [ValidBlockID] accepts
    exactly the ids [Recents] gathers as [recentBlockIDs] for the preferred
    block at the same time; the preferred block's own id is among them. *)
Theorem ValidBlockID_Recents `{ChainParams} (fuel : nat) (vm : VM) (now : Z)
    (b0 : Block) (n : nat) :
  well_keyed vm -> LookbackWindow <> 0 ->
  getBlock vm (preferred vm) = Ok b0 -> Reaches vm b0 n -> (n < fuel)%nat ->
  exists bids tids cost diff,
    Recents fuel vm now b0 = Some (Ok (bids, tids, cost, diff))
    /\ preferred vm ∈ bids
    /\ forall blockID,
         ValidBlockID fuel vm now blockID
         = Some (Ok (bool_decide (blockID ∈ bids))).
Proof.
  intros Hkeyed HL Hget Hreach Hfuel.
  assert (Hid : blk_ID b0 = preferred vm) by (by apply Hkeyed).
  destruct (Recents_returns fuel vm now b0 b0 n HL ltac:(by rewrite Hid)
              Hreach Hfuel)
    as (bids & tids & diff & HR & _ & w & Hw & Hbids & _).
  rewrite Hid in Hw.
  exists bids, tids, (newBlockCost now b0), diff. split; [done|].
  destruct (window_loop_extends vm now (preferred vm) b0 n Hreach fuel []
              Hfuel) as (w1 & Hw1 & _ & Hhead).
  assert (w1 = w) as ->.
  { unfold window, readWindow in Hw. rewrite Hget in Hw.
    rewrite Hw1 in Hw. by injection Hw. }
  split.
  - destruct Hhead as [w' ->].
    { rewrite (bool_decide_eq_true_2 _ Hid). apply orb_true_r. }
    rewrite Hbids, <- Hid. set_solver.
  - intros blockID.
    destruct (ValidBlockID_loop vm now (preferred vm) blockID b0 n Hreach
                fuel [] Hfuel) as (w2 & Hw2 & Hv).
    unfold ValidBlockID, readWindow. rewrite Hget, Hv.
    unfold window, readWindow in Hw. rewrite Hget, Hw2 in Hw.
    injection Hw as ->.
    do 2 f_equal. apply bool_decide_ext. rewrite Hbids. set_solver.
Qed.

(** X5. On a store that keeps blocks under their ids, with the preferred
    block stored and its ancestors going back to genesis,
    [DifficultyEstimate] never divides by zero: the window holds at least the
    preferred block, and the estimate is the window's difficulties summed
    (in [uint64]), divided by the number of its blocks, plus one. Where the
    sum does not overflow, it lies between the least and the greatest
    difficulty of the window, plus one. *)
Theorem DifficultyEstimate_average `{ChainParams} (fuel : nat) (vm : VM)
    (now : Z) (b0 : Block) (n : nat) :
  well_keyed vm ->
  getBlock vm (preferred vm) = Ok b0 -> Reaches vm b0 n -> (n < fuel)%nat ->
  Z.of_nat n < 2 ^ 64 - 1 ->
  exists w,
    window fuel vm now (preferred vm) = Some (Ok w)
    /\ w <> []
    /\ DifficultyEstimate fuel vm now
       = Some (Ok (wrap_u64 (sum_u64 (Difficulty <$> w)
                             / Z.of_nat (length w) + 1)))
    /\ forall lo hi,
         0 <= lo -> Forall (fun b => lo <= Difficulty b <= hi) w ->
         Z.of_nat (length w) * hi < 2 ^ 64 -> hi + 1 < 2 ^ 64 ->
         lo + 1
         <= wrap_u64 (sum_u64 (Difficulty <$> w) / Z.of_nat (length w) + 1)
         <= hi + 1.
Proof.
  intros Hkeyed Hget Hreach Hfuel Hn.
  assert (Hid : blk_ID b0 = preferred vm) by (by apply Hkeyed).
  destruct (window_loop_extends vm now (preferred vm) b0 n Hreach fuel []
              Hfuel) as (w & Hw & Hlen & Hhead).
  simpl in Hw.
  destruct Hhead as [w' Hw'].
  { rewrite (bool_decide_eq_true_2 _ Hid). apply orb_true_r. }
  exists w. split; [by unfold window, readWindow; rewrite Hget|].
  split; [by rewrite Hw'|].
  assert (Hpos : 0 < Z.of_nat (length w) < 2 ^ 64).
  { rewrite Hw' in *. simpl length in *. lia. }
  split.
  - pose proof (readWindow_loop_sim vm now (preferred vm)
                  (fun (s : Z * Z) (w : list Block) =>
                     s.1 = sum_u64 (Difficulty <$> w)
                     /\ s.2 = wrap_u64 (Z.of_nat (length w)))
                  DifficultyEstimate_visit (fun b w => (true, w ++ [b])))
      as Hsim.
    assert (Hrel : forall b (s1 : Z * Z) (w1 : list Block),
               s1.1 = sum_u64 (Difficulty <$> w1)
               /\ s1.2 = wrap_u64 (Z.of_nat (length w1)) ->
               (DifficultyEstimate_visit b s1).1 = true
               /\ (DifficultyEstimate_visit b s1).2.1
                  = sum_u64 (Difficulty <$> (w1 ++ [b]))
               /\ (DifficultyEstimate_visit b s1).2.2
                  = wrap_u64 (Z.of_nat (length (w1 ++ [b])))).
    { intros b [td tb] w1 [Htd Htb]. unfold DifficultyEstimate_visit.
      cbn [fst snd] in *. subst.
      split; [done|]. split.
      - rewrite fmap_app. change (Difficulty <$> [b]) with [Difficulty b].
        by rewrite sum_u64_snoc.
      - rewrite length_app, Nat2Z.inj_add. unfold wrap_u64.
        by rewrite Zplus_mod_idemp_l. }
    specialize (Hsim Hrel fuel b0 (0, 0) [] (conj eq_refl eq_refl)).
    rewrite Hw in Hsim.
    unfold DifficultyEstimate, readWindow. rewrite Hget.
    destruct (readWindow_loop fuel vm now (preferred vm)
                DifficultyEstimate_visit b0 (0, 0)) as [[[td tb]| |]|];
      simpl in Hsim; try done.
    destruct Hsim as [-> ->]. simpl.
    rewrite (wrap_u64_small (Z.of_nat (length w))) by lia.
    unfold u64_div. destruct (Z.eqb_spec (Z.of_nat (length w)) 0); [lia|].
    reflexivity.
  - intros lo hi Hlo Hall Hno Hhi.
    pose proof (sum_u64_bounds (Difficulty <$> w) lo hi Hlo) as Hb.
    rewrite length_fmap in Hb.
    specialize (Hb ltac:(by apply Forall_fmap) Hno).
    assert (lo <= sum_u64 (Difficulty <$> w) / Z.of_nat (length w) <= hi).
    { split.
      - apply Z.div_le_lower_bound; lia.
      - apply Z.div_le_upper_bound; lia. }
    rewrite wrap_u64_small; lia.
Qed.

End QueryProofs.

(** ** The block lifecycle *)

Module LifecycleProofs.
Import Chain Vm EngineProofs QueryProofs.

(** X6. A verified block is served by [getBlock] from memory; once it is
    rejected or accepted, [getBlock] answers for its id what the database
    holds under it, since neither call stores the block; lookups of other
    ids and the database itself are left as they were by all three calls. *)
Theorem getBlock_after_decision (vm : VM) (b : Block) :
  getBlock (Verified vm b) (blk_ID b) = Ok b
  /\ getBlock (Rejected vm b) (blk_ID b) = GetBlock (db vm) (blk_ID b)
  /\ getBlock (Accepted vm b) (blk_ID b) = GetBlock (db vm) (blk_ID b)
  /\ (forall id, id <> blk_ID b ->
        getBlock (Verified vm b) id = getBlock vm id
        /\ getBlock (Rejected vm b) id = getBlock vm id
        /\ getBlock (Accepted vm b) id = getBlock vm id)
  /\ (forall c, db (step vm c) = db vm).
Proof.
  unfold getBlock, Verified, Rejected, Accepted. simpl.
  rewrite lookup_insert_eq, lookup_delete_eq.
  repeat split; try done.
  - by rewrite lookup_insert_ne.
  - by rewrite lookup_delete_ne.
  - by rewrite lookup_delete_ne.
  - by intros [].
Qed.

Lemma run_snoc (vm : VM) (cs : list call) (c : call) :
  run vm (cs ++ [c]) = step (run vm cs) c.
Proof. unfold run. by rewrite foldl_app. Qed.

(** X7. Over any run of [Verified], [Rejected] and [Accepted] calls the
    database is not written; [lastAccepted] is what it was or the id of a
    block the run passed to [Accepted]; [preferred] is what it was or the id
    of a block the run passed to [Verified] whose parent was preferred at
    that moment. *)
Theorem run_pointers (vm : VM) (cs : list call) :
  db (run vm cs) = db vm
  /\ (lastAccepted (run vm cs) = lastAccepted vm
      \/ exists b, CallAccepted b ∈ cs /\ lastAccepted (run vm cs) = blk_ID b)
  /\ (preferred (run vm cs) = preferred vm
      \/ exists b cs1 cs2,
           cs = cs1 ++ CallVerified b :: cs2
           /\ Prnt b = preferred (run vm cs1)
           /\ preferred (run vm cs) = blk_ID b).
Proof.
  induction cs as [|c cs IH] using rev_ind; [simpl; auto|].
  destruct IH as (Hdb & Hacc & Hpref). rewrite run_snoc.
  split; [by destruct c; simpl|]. split.
  - destruct c as [b|b|b]; simpl.
    + destruct Hacc as [? | (b' & Hin & ?)]; [by left|].
      right. exists b'. split; [set_solver | done].
    + destruct Hacc as [? | (b' & Hin & ?)]; [by left|].
      right. exists b'. split; [set_solver | done].
    + right. exists b. split; [set_solver | done].
  - assert (Hkeep : preferred (run vm cs) = preferred vm
                    \/ exists b cs1 cs2,
                         cs ++ [c] = cs1 ++ CallVerified b :: cs2
                         /\ Prnt b = preferred (run vm cs1)
                         /\ preferred (run vm cs) = blk_ID b).
    { destruct Hpref as [? | (b' & cs1 & cs2 & -> & ? & ?)]; [by left|].
      right. exists b', cs1, (cs2 ++ [c]).
      by rewrite <- app_assoc. }
    destruct c as [b|b|b]; simpl; try exact Hkeep.
    destruct (decide (Prnt b = preferred (run vm cs))) as [Heq|Hne].
    + rewrite bool_decide_eq_true_2 by done.
      right. by exists b, cs, [].
    + rewrite bool_decide_eq_false_2 by done. exact Hkeep.
Qed.

(** X8. Verifying, in order, blocks that form a chain on top of the
    preferred block moves [preferred] to the last of them, and each of them
    is then served by [getBlock]. *)
Theorem Verified_chain_preferred (vm : VM) (bs : list Block) :
  extends_chain (preferred vm) bs = true ->
  preferred (run vm (CallVerified <$> bs))
  = default (preferred vm) (blk_ID <$> last bs)
  /\ forall b, b ∈ bs ->
       exists b', getBlock (run vm (CallVerified <$> bs)) (blk_ID b) = Ok b'
                  /\ blk_ID b' = blk_ID b.
Proof.
  revert vm. induction bs as [|b bs IH]; intros vm Hchain.
  { split; [done | intros b Hb; by apply elem_of_nil in Hb]. }
  simpl in Hchain. apply andb_true_iff in Hchain as [Hp Hrest].
  apply bool_decide_eq_true in Hp.
  assert (Hpref : preferred (Verified vm b) = blk_ID b).
  { unfold Verified. simpl. by rewrite bool_decide_eq_true_2. }
  destruct (IH (Verified vm b)) as [IHp IHg]; [by rewrite Hpref|].
  assert (Hrun : run vm (CallVerified <$> b :: bs)
                 = run (Verified vm b) (CallVerified <$> bs)) by reflexivity.
  rewrite Hrun. split.
  - rewrite IHp, Hpref. destruct bs as [|b2 bs']; [done|].
    rewrite last_cons_cons.
    assert (Hsome : is_Some (last (b2 :: bs'))) by (by apply last_is_Some).
    by destruct Hsome as [x ->].
  - intros b1 [-> | Hin]%elem_of_cons; [|by apply IHg].
    destruct (decide (blk_ID b ∈ (blk_ID <$> bs))) as [Hid|Hid].
    + apply list_elem_of_fmap in Hid as (b2 & Heq & Hin2).
      rewrite Heq. by apply IHg.
    + exists b. split; [|done].
      clear IH IHp IHg Hrest.
      assert (Hv : verifiedBlocks (Verified vm b) !! blk_ID b = Some b).
      { unfold Verified. simpl. apply lookup_insert_eq. }
      revert Hv Hid. generalize (Verified vm b). clear.
      induction bs as [|b2 bs IH]; intros vm0 Hv Hid.
      * unfold getBlock. simpl. by rewrite Hv.
      * change (run vm0 (CallVerified <$> b2 :: bs))
          with (run (Verified vm0 b2) (CallVerified <$> bs)).
        apply IH; [|set_solver].
        unfold Verified. simpl. rewrite lookup_insert_ne; [done|].
        set_solver.
Qed.

(** X9. A block that extends the preferred block becomes preferred when it
    is verified, and is still preferred right after it is rejected. If the
    database does not hold it, then in the state [Rejected] leaves
    [preferred] names a block [getBlock] cannot find, and a call of
    [ValidBlockID] or [DifficultyEstimate] made in that state panics,
    whatever the time and the id asked for. *)
Theorem Rejected_leaves_preferred `{ChainParams} (vm : VM) (b : Block) :
  Prnt b = preferred vm -> db vm !! blk_ID b = None ->
  preferred (Rejected (Verified vm b) b) = blk_ID b
  /\ getBlock (Rejected (Verified vm b) b) (blk_ID b) = Err ErrExternal
  /\ (forall fuel now blockID,
        ValidBlockID fuel (Rejected (Verified vm b) b) now blockID
        = Some Panic)
  /\ (forall fuel now,
        DifficultyEstimate fuel (Rejected (Verified vm b) b) now = Some Panic).
Proof.
  intros Hp Hdb.
  assert (Hpref : preferred (Rejected (Verified vm b) b) = blk_ID b).
  { unfold Rejected, Verified. simpl. by rewrite bool_decide_eq_true_2. }
  assert (Hget : getBlock (Rejected (Verified vm b) b) (blk_ID b)
                 = Err ErrExternal).
  { unfold getBlock, GetBlock, Rejected, Verified. simpl.
    by rewrite lookup_delete_eq, Hdb. }
  split; [done|]. split; [done|]. split.
  - intros fuel now blockID. unfold ValidBlockID, readWindow.
    by rewrite Hpref, Hget.
  - intros fuel now. unfold DifficultyEstimate, readWindow.
    by rewrite Hpref, Hget.
Qed.

End LifecycleProofs.

(** ** Block building *)

Module BuildProofs.
Import Chain Vm.

(** X10. With a mempool whose [PopMax] takes one transaction out and reports
    its cached difficulty, the selection loop of [BuildBlock] ends within as
    many iterations as the mempool holds transactions. When it ends without
    a panic, the block's transactions are those it started with followed by
    the selected ones; the block holds no more than [TargetTransactions]
    (or than it started with); every selected transaction has at least the
    block's difficulty; and the scratch database is what verifying and
    committing exactly the selected transactions, in order, leaves: a
    transaction that failed verification leaves no trace. *)
Theorem BuildBlock_loop_selects `{ChainParams} `{BuildEnv} (fuel : nat)
    (b_Tmstmp b_Difficulty : Z) (recentBlockIDs recentTxIDs : gset ID)
    (txs : list Transaction) (pool : Pool) (tdb : DB) :
  pool_laws -> (Z.to_nat (pool_Len pool) < fuel)%nat ->
  exists r,
    BuildBlock_loop fuel b_Tmstmp b_Difficulty recentBlockIDs recentTxIDs txs
      pool tdb = Some r
    /\ forall txsF poolF tdbF,
         r = Ok (txsF, poolF, tdbF) ->
         exists sel,
           txsF = txs ++ sel
           /\ Z.of_nat (length txsF)
              <= Z.max (Z.of_nat (length txs)) TargetTransactions
           /\ Forall (fun tx => b_Difficulty <= tx_Difficulty tx) sel
           /\ apply_txs b_Tmstmp b_Difficulty recentBlockIDs recentTxIDs sel
                tdb = Some tdbF.
Proof.
  intros Hlaws. revert txs pool tdb.
  induction fuel as [|fuel IH]; intros txs pool tdb Hfuel; [lia|]. simpl.
  destruct (Z.ltb_spec (Z.of_nat (length txs)) TargetTransactions) as [Hlen|Hlen];
    simpl.
  2:{ eexists. split; [reflexivity|]. intros ??? [= <- <- <-].
      exists []. rewrite app_nil_r. repeat split; [lia | constructor]. }
  destruct (Z.ltb_spec 0 (pool_Len pool)) as [Hpool|Hpool].
  2:{ eexists. split; [reflexivity|]. intros ??? [= <- <- <-].
      exists []. rewrite app_nil_r. repeat split; [lia | constructor]. }
  destruct (pool_PopMax pool) as [[next diff] pool1] eqn:Hpop.
  destruct (Hlaws pool next diff pool1 Hpool Hpop) as [Hlen1 ->].
  destruct (Z.ltb_spec (tx_Difficulty next) b_Difficulty) as [Hlow|Hhigh].
  { eexists. split; [reflexivity|]. intros ??? [= <- <- <-].
    exists []. rewrite app_nil_r. repeat split; [lia | constructor]. }
  destruct (tx_Verify next tdb b_Tmstmp recentBlockIDs recentTxIDs
              b_Difficulty) as [ttdb [[]|e|]] eqn:Hver.
  - destruct (db_Commit ttdb) as [tdb'|e|] eqn:Hcom;
      try (eexists; split; [reflexivity | discriminate]).
    destruct (IH (txs ++ [next]) pool1 tdb' ltac:(lia)) as (r & Hr & Hprop).
    exists r. split; [done|]. intros txsF poolF tdbF Heq.
    destruct (Hprop txsF poolF tdbF Heq) as (sel & -> & Hcount & Hall & Happ).
    exists (next :: sel). rewrite <- app_assoc. split; [done|].
    split; [rewrite !length_app in *; cbn [length] in *; lia|].
    split; [by constructor|].
    simpl. by rewrite Hver, Hcom.
  - destruct (IH txs pool1 tdb ltac:(lia)) as (r & Hr & Hprop). eauto.
  - eexists. split; [reflexivity | discriminate].
Qed.

End BuildProofs.

(** ** The genesis command *)

Module CmdProofs.
Import Chain Vm Cmd.

(** X11. The block [genesisFunc] builds carries as its difficulty and cost
    the [MinDifficulty] and [MinBlockCost] of the genesis parameters it
    embeds; a negative flag keeps the default, a non-negative flag replaces
    it. When [chain.Marshal] fails, its error is returned and the file system
    is untouched: [os.WriteFile] is not called. When it succeeds, the outcome
    and the file system are those of the one call of [os.WriteFile] on the
    genesis file with the marshalled block. *)
Theorem genesisFunc_writes {FS : Type}
    (Marshal : StatefulBlock -> result (list byte))
    (WriteFile : list byte -> list byte -> FS -> FS * result unit)
    (g : Genesis) (genesisFile : list byte)
    (minDifficulty minBlockCost now : Z) (fs : FS) :
  SB_Difficulty (genesis_block g minDifficulty minBlockCost now)
  = G_MinDifficulty (SB_Genesis (genesis_block g minDifficulty minBlockCost now))
  /\ SB_Cost (genesis_block g minDifficulty minBlockCost now)
     = G_MinBlockCost
         (SB_Genesis (genesis_block g minDifficulty minBlockCost now))
  /\ (minDifficulty < 0 ->
      SB_Difficulty (genesis_block g minDifficulty minBlockCost now)
      = G_MinDifficulty g)
  /\ (0 <= minDifficulty < 2 ^ 63 ->
      SB_Difficulty (genesis_block g minDifficulty minBlockCost now)
      = minDifficulty)
  /\ (minBlockCost < 0 ->
      SB_Cost (genesis_block g minDifficulty minBlockCost now)
      = G_MinBlockCost g)
  /\ (0 <= minBlockCost < 2 ^ 63 ->
      SB_Cost (genesis_block g minDifficulty minBlockCost now) = minBlockCost)
  /\ (forall e,
        Marshal (genesis_block g minDifficulty minBlockCost now) = Err e ->
        genesisFunc Marshal WriteFile g genesisFile minDifficulty minBlockCost
          now fs = (fs, Err e))
  /\ (forall bytes,
        Marshal (genesis_block g minDifficulty minBlockCost now) = Ok bytes ->
        genesisFunc Marshal WriteFile g genesisFile minDifficulty minBlockCost
          now fs = WriteFile genesisFile bytes fs).
Proof.
  assert (Hrun :
    (forall e,
        Marshal (genesis_block g minDifficulty minBlockCost now) = Err e ->
        genesisFunc Marshal WriteFile g genesisFile minDifficulty minBlockCost
          now fs = (fs, Err e))
    /\ (forall bytes,
          Marshal (genesis_block g minDifficulty minBlockCost now) = Ok bytes ->
          genesisFunc Marshal WriteFile g genesisFile minDifficulty
            minBlockCost now fs = WriteFile genesisFile bytes fs)).
  { unfold genesisFunc. split; intros x Hx; by rewrite Hx. }
  destruct Hrun as [Herr Hok].
  unfold genesis_block in *.
  destruct (Z.leb_spec 0 minDifficulty), (Z.leb_spec 0 minBlockCost);
    cbn [SB_Difficulty SB_Cost SB_Genesis G_MinDifficulty G_MinBlockCost]
      in *;
    repeat split; try done; try (intros; lia);
    try (intros; unfold wrap_u64; rewrite Z.mod_small; lia).
Qed.

End CmdProofs.

(** ** More on the signer *)

Module SignerMoreProofs.
Import Chain SignerProofs.

Section Signer.
Context `{Secp256k1}.

(** On a signature of 65 bytes [DeriveSender] answers what the recovery
    primitive answers on the digest and the signature's bytes with byte 64
    lowered by 27. *)
Lemma DeriveSender_result (m : Mem) (dh : list byte) (sig : loc) (b : byte) :
  length (slice_bytes m sig) = SignatureLength ->
  slice_bytes m sig !! 64%nat = Some b ->
  (DeriveSender m dh sig).2
  = crypto_SigToPub dh (<[64%nat := byte_sub b legacySigAdj]> (slice_bytes m sig)).
Proof.
  intros Hlen Hb. unfold DeriveSender.
  rewrite Hlen, Nat.eqb_refl. simpl negb. cbv iota.
  unfold make_bytes.
  set (c := fresh (dom (bufs m))).
  set (m1 := {| bufs := <[c:=replicate SignatureLength x00]> (bufs m);
                recovered := recovered m |}).
  assert (Hcl : sig <> c).
  { intros E. pose proof (fresh_unmapped m) as Hf. fold c in Hf.
    rewrite <- E in Hf. apply (f_equal (default [])) in Hf.
    fold (slice_bytes m sig) in Hf. simpl in Hf. rewrite Hf in Hlen.
    discriminate. }
  assert (Hsrc : slice_bytes m1 sig = slice_bytes m sig).
  { unfold slice_bytes. subst m1. simpl. by rewrite lookup_insert_ne. }
  assert (Hdst : slice_bytes m1 c = replicate SignatureLength x00).
  { unfold slice_bytes. subst m1. simpl. by rewrite lookup_insert_eq. }
  assert (Hcopy : slice_bytes (copy_bytes m1 c sig) c = slice_bytes m sig).
  { unfold slice_bytes at 1. unfold copy_bytes. simpl.
    rewrite lookup_insert_eq. simpl. rewrite Hsrc, Hdst.
    rewrite length_replicate, Hlen, <- Hlen at 1.
    rewrite firstn_all. rewrite drop_ge by (by rewrite length_replicate).
    by rewrite app_nil_r. }
  destruct (update_index_at (copy_bytes m1 c sig) c 64
              (fun b => byte_sub b legacySigAdj) b) as (m3 & Hup & Hm3).
  { by rewrite Hcopy. }
  rewrite Hup. unfold SigToPub. simpl. by rewrite Hm3, Hcopy.
Qed.

(** X12. What [DeriveSender] answers depends on the digest and on the bytes
    of the signature alone, so it answers the same in any memory that holds
    the same bytes, and the same again when called a second time on the same
    buffer. *)
Theorem DeriveSender_repeatable (m : Mem) (dh : list byte) (sig : loc) :
  (forall m' sig',
     slice_bytes m' sig' = slice_bytes m sig ->
     (DeriveSender m' dh sig').2 = (DeriveSender m dh sig).2)
  /\ (DeriveSender (DeriveSender m dh sig).1 dh sig).2
     = (DeriveSender m dh sig).2.
Proof.
  assert (Hdep : forall m' sig',
            slice_bytes m' sig' = slice_bytes m sig ->
            (DeriveSender m' dh sig').2 = (DeriveSender m dh sig).2).
  { intros m' sig' Heq.
    destruct (decide (length (slice_bytes m sig) = SignatureLength))
      as [Hlen|Hlen].
    - assert (H64 : is_Some (slice_bytes m sig !! 64%nat)).
      { apply lookup_lt_is_Some. rewrite Hlen. unfold SignatureLength. lia. }
      destruct H64 as [b Hb].
      rewrite (DeriveSender_result m dh sig b Hlen Hb).
      rewrite (DeriveSender_result m' dh sig' b) by (by rewrite Heq).
      by rewrite Heq.
    - unfold DeriveSender. rewrite Heq.
      by destruct (Nat.eqb_spec (length (slice_bytes m sig)) SignatureLength). }
  split; [exact Hdep|]. apply Hdep.
  destruct (decide (length (slice_bytes m sig) = SignatureLength))
    as [Hlen|Hlen].
  - unfold slice_bytes. rewrite DeriveSender_preserves; [done|].
    apply slice_bytes_mapped. intros E. by rewrite E in Hlen.
  - unfold DeriveSender.
    by destruct (Nat.eqb_spec (length (slice_bytes m sig)) SignatureLength).
Qed.

(** X13. [Sign] passes an error of [crypto.Sign] on and leaves memory as it
    was; it panics when [crypto.Sign] returns fewer than 65 bytes; otherwise
    it returns a slice that did not exist before, holding the bytes of
    [crypto.Sign] with byte 64 raised by 27 (modulo 256) and every other
    byte as it was, and it changes no buffer that existed. *)
Theorem Sign_outcomes (m : Mem) (d : list byte) (k : PrivateKey) :
  (forall e, crypto_Sign d k = Err e -> Sign m d k = (m, Err e))
  /\ (forall s, crypto_Sign d k = Ok s -> (length s <= 64)%nat ->
                (Sign m d k).2 = Panic)
  /\ (forall s b,
        crypto_Sign d k = Ok s -> s !! 64%nat = Some b ->
        exists m1 sig,
          Sign m d k = (m1, Ok sig)
          /\ bufs m !! sig = None
          /\ slice_bytes m1 sig = <[64%nat := byte_add b legacySigAdj]> s
          /\ (forall i, i <> 64%nat -> slice_bytes m1 sig !! i = s !! i)
          /\ forall l, is_Some (bufs m !! l) -> bufs m1 !! l = bufs m !! l).
Proof.
  split; [|split].
  - intros e He. unfold Sign. by rewrite He.
  - intros s Hs Hlen. unfold Sign. rewrite Hs. unfold new_slice.
    unfold update_index, slice_bytes. simpl. rewrite lookup_insert_eq. simpl.
    by rewrite lookup_ge_None_2 by lia.
  - intros s b Hs Hb. unfold Sign. rewrite Hs. unfold new_slice.
    set (l := fresh (dom (bufs m))).
    set (m0 := {| bufs := <[l:=s]> (bufs m); recovered := recovered m |}).
    assert (Hm0 : slice_bytes m0 l = s).
    { unfold slice_bytes. subst m0. simpl. by rewrite lookup_insert_eq. }
    destruct (update_index_at m0 l 64 (fun b => byte_add b legacySigAdj) b)
      as (m1 & Hup & Hm1); [by rewrite Hm0|].
    rewrite Hup. rewrite Hm0 in Hm1.
    exists m1, l. split; [done|]. split; [apply fresh_unmapped|].
    split; [done|]. split.
    + intros i Hi. rewrite Hm1. by apply list_lookup_insert_ne.
    + intros l0 Hl0.
      assert (l0 <> l).
      { intros ->. subst l. rewrite fresh_unmapped in Hl0. by destruct Hl0. }
      rewrite (update_index_other _ _ _ _ _ _ Hup) by done.
      subst m0. simpl. by rewrite lookup_insert_ne.
Qed.

End Signer.

End SignerMoreProofs.

(** ** More on lifelines and on Recents *)

Module ControlProofs.
Import Chain Vm RegistryProofs EngineProofs.

(** X14. On an entry with at least one unit, for a prefix whose units are at
    least the renewal discount, a lifeline that does not carry the expiry
    past the largest [uint64] succeeds and never shortens the expiry: it
    adds between 0 and [ExpiryTime] seconds. *)
Theorem LifelineTx_Execute_monotone `{ChainParams} (l : LifelineTx)
    (db : Database) (t : Z) (i : PrefixInfo) :
  infos db !! Prefix (LifelineTx_BaseTx l) = Some i ->
  0 <= ExpiryTime -> 0 < Units i -> 0 < PrefixRenewalDiscount ->
  PrefixRenewalDiscount <= prefixUnits (Prefix (LifelineTx_BaseTx l)) ->
  0 <= Expiry i -> Expiry i + ExpiryTime < 2 ^ 64 ->
  exists db' i',
    LifelineTx_Execute l db t = (db', Ok ())
    /\ infos db' !! Prefix (LifelineTx_BaseTx l) = Some i'
    /\ Owner i' = Owner i /\ Units i' = Units i
    /\ Expiry i <= Expiry i' <= Expiry i + ExpiryTime.
Proof.
  intros E HE HU HD HP Hexp Hno.
  set (p := Prefix (LifelineTx_BaseTx l)) in *.
  assert (Hpen : 1 <= prefixUnits p / PrefixRenewalDiscount).
  { apply Z.div_le_lower_bound; lia. }
  destruct (addLife_extends db p i E) as (db' & Hrun & Hinfos); try lia.
  eexists db', _. split; [exact Hrun|].
  rewrite Hinfos, lookup_insert_eq. split; [reflexivity|]. simpl.
  split; [done|]. split; [done|].
  set (q1 := ExpiryTime / Units i).
  set (q2 := q1 / prefixUnits p).
  set (q3 := q2 / (prefixUnits p / PrefixRenewalDiscount)).
  assert (H1 : 0 <= q1 <= ExpiryTime).
  { subst q1. split; [apply Z.div_pos; lia|].
    apply Z.div_le_upper_bound; [lia | nia]. }
  assert (H2 : 0 <= q2 <= q1).
  { subst q2. split; [apply Z.div_pos; lia|].
    apply Z.div_le_upper_bound; [lia | nia]. }
  assert (H3 : 0 <= q3 <= q2).
  { subst q3. split; [apply Z.div_pos; lia|].
    apply Z.div_le_upper_bound; [lia | nia]. }
  rewrite wrap_u64_small; lia.
Qed.

(** X15. How [Recents] moves cost and difficulty, with the inputs raised to
    their floors first ([baseC], [baseD]). Blocks faster than [BlockTarget]
    raise the cost above [baseC] (unless the sum overflows); otherwise the
    cost is between the floor and [baseC], and is the floor once the excess
    time covers the distance. With more than [TargetTransactions] recent
    transactions the difficulty is [baseD + 1] (unless that overflows);
    otherwise it is between the floor and [baseD], and with fewer, for a
    last block not in the future, strictly below [baseD] unless that is
    the floor. *)
Theorem Recents_adjusts `{ChainParams} (fuel : nat) (vm : VM) (currTime : Z)
    (lastBlock b0 : Block) (n : nat) :
  is_u64 MinBlockCost -> is_u64 MinDifficulty ->
  is_u64 (Cost lastBlock) -> is_u64 (Difficulty lastBlock) ->
  0 <= BlockTarget -> 0 < LookbackWindow ->
  getBlock vm (blk_ID lastBlock) = Ok b0 -> Reaches vm b0 n -> (n < fuel)%nat ->
  exists bids tids cost diff,
    Recents fuel vm currTime lastBlock = Some (Ok (bids, tids, cost, diff))
    /\ (secondsSinceLast currTime lastBlock < BlockTarget ->
        Z.max (Cost lastBlock) MinBlockCost
        + (BlockTarget - secondsSinceLast currTime lastBlock) < 2 ^ 64 ->
        Z.max (Cost lastBlock) MinBlockCost < cost)
    /\ (BlockTarget <= secondsSinceLast currTime lastBlock ->
        MinBlockCost <= cost <= Z.max (Cost lastBlock) MinBlockCost
        /\ (Z.max (Cost lastBlock) MinBlockCost - MinBlockCost
            <= secondsSinceLast currTime lastBlock - BlockTarget ->
            cost = MinBlockCost))
    /\ (TargetTransactions < Z.of_nat (size tids) ->
        Z.max (Difficulty lastBlock) MinDifficulty + 1 < 2 ^ 64 ->
        diff = Z.max (Difficulty lastBlock) MinDifficulty + 1)
    /\ (Z.of_nat (size tids) <= TargetTransactions ->
        MinDifficulty <= diff <= Z.max (Difficulty lastBlock) MinDifficulty)
    /\ (Z.of_nat (size tids) < TargetTransactions ->
        0 <= secondsSinceLast currTime lastBlock ->
        MinDifficulty < Z.max (Difficulty lastBlock) MinDifficulty ->
        diff < Z.max (Difficulty lastBlock) MinDifficulty).
Proof.
  intros HMC HMD HC HD HT HL Hget Hreach Hfuel.
  assert (HL0 : LookbackWindow <> 0) by lia.
  destruct (Recents_returns fuel vm currTime lastBlock b0 n HL0 Hget Hreach
              Hfuel) as (bids & tids & diff & HR & Hdiff & _).
  exists bids, tids, (newBlockCost currTime lastBlock), diff.
  split; [done|]. unfold is_u64 in *.
  split; [|split; [|split; [|split]]].
  - intros He Hno. rewrite newBlockCost_rising by done.
    rewrite wrap_u64_small; lia.
  - intros He. rewrite newBlockCost_falling by (unfold is_u64; lia). lia.
  - intros Hn Hno. rewrite newMinDifficulty_over in Hdiff by done.
    injection Hdiff as <-. rewrite wrap_u64_small; lia.
  - intros Hn.
    destruct (Z.eq_dec (Z.of_nat (size tids)) TargetTransactions) as [Heq|Hne].
    + rewrite newMinDifficulty_at in Hdiff by done. injection Hdiff as <-. lia.
    + destruct (elapsedWindows_ok currTime lastBlock HL0)
        as (ew & Hew & Hrange).
      assert (Hlt : Z.of_nat (size tids) < TargetTransactions) by lia.
      destruct (newMinDifficulty_under currTime lastBlock
                  (Z.of_nat (size tids)) ew HMD HD Hlt Hew
                  (proj1 Hrange)) as [Heq _].
      rewrite Heq in Hdiff. injection Hdiff as <-. lia.
  - intros Hn He Hbase.
    pose proof (elapsedWindows_nonneg currTime lastBlock HL He) as Hew.
    assert (0 <= secondsSinceLast currTime lastBlock / LookbackWindow)
      by (apply Z.div_pos; lia).
    assert (Hew0 : 0 <= secondsSinceLast currTime lastBlock / LookbackWindow
                        + 1) by lia.
    destruct (newMinDifficulty_under currTime lastBlock
                (Z.of_nat (size tids)) _ HMD HD Hn Hew Hew0)
      as [Heq _].
    rewrite Heq in Hdiff. injection Hdiff as <-. lia.
Qed.

End ControlProofs.

(** ** More evaluations on the sample data *)

Module MoreChecks.
Import Chain Vm Samples EngineProofs EngineChecks QueryProofs LifecycleProofs
  BuildProofs ControlProofs.

Lemma ValidBlockID_window_witness :
  exists w,
    @window sample_params 3 vm3 150 (preferred vm3) = Some (Ok w)
    /\ @ValidBlockID sample_params 3 vm3 150 2%N
       = Some (Ok (bool_decide (2%N ∈ blk_ID <$> w))).
Proof.
  exact (@ValidBlockID_window sample_params 3 vm3 150 2%N c3 2 eq_refl
           vm3_reaches (le_n 3)).
Defined.

(** On the sample chain at time 150 the tip and its parent are valid
    anchors and genesis, out of the window, is not. *)
Example ValidBlockID_vm3 :
  @ValidBlockID sample_params 3 vm3 150 3%N = Some (Ok true)
  /\ @ValidBlockID sample_params 3 vm3 150 2%N = Some (Ok true)
  /\ @ValidBlockID sample_params 3 vm3 150 1%N = Some (Ok false).
Proof. repeat split; vm_compute; reflexivity. Qed.

Lemma ValidBlockID_Recents_witness :
  exists bids tids cost diff,
    @Recents sample_params 3 vm3 150 c3 = Some (Ok (bids, tids, cost, diff))
    /\ preferred vm3 ∈ bids
    /\ @ValidBlockID sample_params 3 vm3 150 2%N
       = Some (Ok (bool_decide (2%N ∈ bids))).
Proof.
  destruct (@ValidBlockID_Recents sample_params 3 vm3 150 c3 2
              (vm_of_well_keyed _ _)) as (bids & tids & cost & diff & HR & Hp & Hv).
  - vm_compute. discriminate.
  - reflexivity.
  - exact vm3_reaches.
  - lia.
  - exists bids, tids, cost, diff. split; [exact HR|].
    split; [exact Hp | exact (Hv 2%N)].
Defined.

Lemma DifficultyEstimate_average_witness :
  exists w,
    @window sample_params 3 vm3 150 (preferred vm3) = Some (Ok w)
    /\ w <> []
    /\ @DifficultyEstimate sample_params 3 vm3 150
       = Some (Ok (wrap_u64 (sum_u64 (Difficulty <$> w)
                             / Z.of_nat (length w) + 1))).
Proof.
  destruct (@DifficultyEstimate_average sample_params 3 vm3 150 c3 2
              (vm_of_well_keyed _ _) eq_refl vm3_reaches (le_n 3))
    as (w & Hw & Hne & Hd & _).
  - vm_compute. reflexivity.
  - exists w. split; [exact Hw|]. split; [exact Hne | exact Hd].
Defined.

(** Two blocks of difficulty 1 in the window: the estimate is 2. *)
Example DifficultyEstimate_vm3 :
  @DifficultyEstimate sample_params 3 vm3 150 = Some (Ok 2).
Proof. vm_compute. reflexivity. Qed.

Lemma Verified_chain_preferred_witness :
  extends_chain (preferred vm0) [c2; c3] = true
  /\ preferred (run vm0 (CallVerified <$> [c2; c3])) = blk_ID c3.
Proof.
  assert (Hchain : extends_chain (preferred vm0) [c2; c3] = true)
    by (vm_compute; reflexivity).
  split; [exact Hchain|].
  exact (proj1 (Verified_chain_preferred vm0 [c2; c3] Hchain)).
Defined.

Lemma Rejected_leaves_preferred_witness :
  Prnt c2 = preferred vm0 /\ db vm0 !! blk_ID c2 = None
  /\ preferred (Rejected (Verified vm0 c2) c2) = blk_ID c2
  /\ @ValidBlockID sample_params 3 (Rejected (Verified vm0 c2) c2) 150 1%N
     = Some Panic.
Proof.
  assert (Hp : Prnt c2 = preferred vm0) by reflexivity.
  assert (Hdb : db vm0 !! blk_ID c2 = None) by (vm_compute; reflexivity).
  split; [exact Hp|]. split; [exact Hdb|].
  destruct (@Rejected_leaves_preferred sample_params vm0 c2 Hp Hdb)
    as (Hpref & _ & Hvalid & _).
  split; [exact Hpref | exact (Hvalid 3%nat 150 1%N)].
Defined.

Lemma toy_pool_laws : @pool_laws toy_build.
Proof.
  intros pool next diff pool1 Hlen Hpop. simpl in *.
  destruct pool as [|tx pool]; simpl in *; [lia|].
  injection Hpop as <- <- <-. split; [lia | reflexivity].
Qed.

Lemma BuildBlock_loop_selects_witness :
  exists r,
    @BuildBlock_loop sample_params toy_build 4 150 5 ∅ {[ 7%N ]} [] toy_pool []
    = Some r
    /\ forall txsF poolF tdbF,
         r = Ok (txsF, poolF, tdbF) ->
         Z.of_nat (length txsF) <= 10
         /\ Forall (fun tx => 5 <= @tx_Difficulty toy_build tx) txsF.
Proof.
  destruct (@BuildBlock_loop_selects sample_params toy_build 4 150 5 ∅
              {[ 7%N ]} [] toy_pool [] toy_pool_laws)
    as (r & Hr & Hprop).
  - vm_compute. lia.
  - exists r. split; [exact Hr|].
    intros txsF poolF tdbF Heq.
    destruct (Hprop txsF poolF tdbF Heq) as (sel & Hsel & Hcount & Hall & _).
    simpl in Hsel. subst txsF. split; [exact Hcount | exact Hall].
Defined.

(** The sample mempool at difficulty 5 with transaction 7 among the recent
    ones: 9 is selected, 7 fails verification and is dropped, 3 is below the
    block's difficulty and goes back into the mempool. *)
Example BuildBlock_loop_toy :
  @BuildBlock_loop sample_params toy_build 4 150 5 ∅ {[ 7%N ]} [] toy_pool []
  = Some (Ok ([{| tx_ID := 9%N |}], [{| tx_ID := 3%N |}], [9%N])).
Proof. vm_compute. reflexivity. Qed.

Lemma LifelineTx_Execute_monotone_witness :
  exists db' i',
    @LifelineTx_Execute sample_params (lifeline sender2 foo) (db_with foo 100)
      7 = (db', Ok ())
    /\ infos db' !! foo = Some i'
    /\ 100 <= Expiry i' <= 100 + 2592000.
Proof.
  destruct (@LifelineTx_Execute_monotone sample_params (lifeline sender2 foo)
              (db_with foo 100) 7 (sample_info 100))
    as (db' & i' & Hrun & Hinfo & _ & _ & Hexp);
    try (vm_compute; reflexivity); try (vm_compute; discriminate).
  exists db', i'. split; [exact Hrun|]. split; [exact Hinfo | exact Hexp].
Defined.

Lemma Recents_adjusts_witness :
  exists bids tids cost diff,
    @Recents sample_params 1 vm0 100 g0 = Some (Ok (bids, tids, cost, diff))
    /\ 1 < cost
    /\ 1 <= diff <= 1.
Proof.
  destruct (@Recents_adjusts sample_params 1 vm0 100 g0 g0 0)
    as (bids & tids & cost & diff & HR & Hrise & _ & _ & Hkeep & _).
  - vm_compute. split; [discriminate | reflexivity].
  - vm_compute. split; [discriminate | reflexivity].
  - vm_compute. split; [discriminate | reflexivity].
  - vm_compute. split; [discriminate | reflexivity].
  - vm_compute. discriminate.
  - reflexivity.
  - reflexivity.
  - exact vm0_reaches.
  - lia.
  - exists bids, tids, cost, diff. split; [exact HR|]. split.
    + apply Hrise; vm_compute; reflexivity.
    + apply Hkeep.
      assert (Htids : tids = ∅).
      { vm_compute in HR. injection HR as _ <- _ _. reflexivity. }
      rewrite Htids. vm_compute. discriminate.
Defined.

End MoreChecks.

(** ** Missing blocks *)

Module PanicProofs.
Import Chain Vm.

(** X16. [Recents] panics when the store cannot serve the last block by its
    id, and also when it serves it but not its parent (the last block not
    being genesis): the walk always visits the block it starts on and then
    fetches that block's parent. *)
Theorem Recents_panics_on_missing_block `{ChainParams} (fuel : nat) (vm : VM)
    (currTime : Z) (lastBlock : Block) :
  (forall e, getBlock vm (blk_ID lastBlock) = Err e ->
             Recents fuel vm currTime lastBlock = Some Panic)
  /\ (forall b0 e,
        getBlock vm (blk_ID lastBlock) = Ok b0 ->
        blk_ID b0 = blk_ID lastBlock -> Prnt b0 <> emptyID ->
        getBlock vm (Prnt b0) = Err e -> (0 < fuel)%nat ->
        Recents fuel vm currTime lastBlock = Some Panic).
Proof.
  split.
  - intros e He. unfold Recents, readWindow. by rewrite He.
  - intros b0 e Hget Hid Hne Hparent Hfuel.
    unfold Recents, readWindow. rewrite Hget.
    destruct fuel as [|fuel]; [lia|]. simpl.
    rewrite (bool_decide_eq_true_2 _ Hid), orb_true_r.
    rewrite (bool_decide_eq_false_2 _ Hne). by rewrite Hparent.
Qed.

End PanicProofs.

Module PanicChecks.
Import Chain Vm Samples PanicProofs.

Lemma Recents_panics_on_missing_block_witness :
  getBlock vm0 (blk_ID c2) = Err ErrExternal
  /\ @Recents sample_params 3 vm0 150 c2 = Some Panic.
Proof.
  assert (Hget : getBlock vm0 (blk_ID c2) = Err ErrExternal)
    by (vm_compute; reflexivity).
  split; [exact Hget|].
  exact (proj1 (@Recents_panics_on_missing_block sample_params 3 vm0 150 c2)
           ErrExternal Hget).
Defined.

End PanicChecks.
